(** * Stream consumption core of bullmq: [Consumer] and [QueueEvents]

    A shallow embedding of [src/classes/consumer.ts] (the consumer-group
    reader) and of the [QueueEvents] class (the event-stream listener),
    together with the verification of the properties stated for them.

    The asynchronous methods are written in a state-and-exception monad
    over a [World]: the store behind the Redis client, the fields of the
    instance, the number of [Date.now()] readings taken so far, the state
    of the user's callback, and a ghost trace of the observable actions
    (reads, callback invocations, acknowledgments, trims, 'error'
    emissions) on which the temporal properties are stated. *)

From stdpp Require Import base list gmap strings sorting pretty.
From Stdlib Require Import ZArith NArith Lia.

Local Open Scope Z_scope.

(** ** JavaScript values as the two classes use them *)

Module Js.

(** The errors that can be thrown in the modelled code. *)
Inductive error : Type :=
| Error (message : string)
| SyntaxError (message : string)
| TypeError (message : string).

(** A number as the arithmetic of [trimStream] can produce it: an integer
    count of milliseconds, or [NaN] (a subtraction with [undefined]). *)
Inductive num : Type :=
| NaN
| Num (z : Z).

(** [a - b] where [b] is a number or [undefined]. *)
Definition sub (a : Z) (b : option Z) : num :=
  match b with
  | Some v => Num (a - v)
  | None => NaN
  end.

(** [x || d] for [x] a number or [undefined]: [undefined] and [0] are
    falsy. *)
Definition or_default (x : option Z) (d : Z) : Z :=
  match x with
  | Some v => if Z.eqb v 0 then d else v
  | None => d
  end.

(** [x || d] for [x] a computed number: [NaN] and [0] are falsy. *)
Definition num_or (x : num) (d : Z) : Z :=
  match x with
  | NaN => d
  | Num z => if Z.eqb z 0 then d else z
  end.

(** [hay.includes(needle)]. *)
Fixpoint includes (needle hay : string) : bool :=
  String.prefix needle hay ||
  match hay with
  | EmptyString => false
  | String _ rest => includes needle rest
  end.

End Js.

(** What the code takes from the JavaScript runtime: the values [JSON.parse]
    produces, the parser itself ([None] when it throws a [SyntaxError]),
    truthiness and string conversion of a parsed value. *)
Class JsRuntime := {
  Json : Type;
  JSON_parse : string -> option Json;
  Json_truthy : Json -> bool;
  Json_toString : Json -> string
}.

Section Values.
Context `{RT : JsRuntime}.

(** The value of an object property: a field text taken from the record,
    [undefined] (a key without its value, or a missing key), or a value
    decoded by [JSON.parse]. *)
Inductive value : Type :=
| VUndefined
| VString (s : string)
| VJson (j : Json).

(** An object used as a map from property names to values. *)
Abbreviation obj := (gmap string value).

(** [o[k]]: a missing property reads as [undefined]. *)
Definition obj_get (o : obj) (k : string) : value :=
  default VUndefined (o !! k).

(** [String(v)], as a template string and [JSON.parse] apply it. *)
Definition to_string (v : value) : string :=
  match v with
  | VUndefined => "undefined"
  | VString s => s
  | VJson j => Json_toString j
  end.

(** Truthiness, as in [if (restArgs.jobId)]. *)
Definition truthy (v : value) : bool :=
  match v with
  | VUndefined => false
  | VString s => negb (String.eqb s "")
  | VJson j => Json_truthy j
  end.

(** [o[k] = v] on an object created by [{}], for a value [v] that is a
    string or [undefined]: the property is created or overwritten, except
    for the key ["__proto__"], which names the accessor inherited from
    [Object.prototype]; its setter ignores a value that is not an object,
    and the object is left as it was. *)
Definition set_prop (k : string) (v : value) (o : obj) : obj :=
  if String.eqb k "__proto__" then o else <[k := v]> o.

(** The loop of [processMessages] that flattens the field list
    [k1, v1, k2, v2, ...] into an object:
    [for (i = 0; i < fields.length; i += 2) jobData[fields[i]] = fields[i + 1]].
    A trailing key without a value is bound to [undefined]. *)
Fixpoint fields_to_obj (fields : list string) (acc : obj) : obj :=
  match fields with
  | [] => acc
  | [k] => set_prop k VUndefined acc
  | k :: v :: rest => fields_to_obj rest (set_prop k (VString v) acc)
  end.

(** Modelled from the spec: [array2obj] is imported from [../utils], which
    is not among the sources.  The spec has the listener "decode fields
    into an object", the same flattening of a flat key/value list that
    [processMessages] writes out inline. *)
Definition array2obj (arr : list string) : obj := fields_to_obj arr ∅.

(** [JSON.parse(v)]: the argument is converted to a string first, so
    [undefined] is parsed as the text "undefined". *)
Definition parse_value (v : value) : Js.error + Json :=
  let text := to_string v in
  match JSON_parse text with
  | Some j => inr j
  | None => inl (Js.SyntaxError text)
  end.

End Values.

(** An object used as a map from property names to values. *)
Abbreviation obj := (gmap string value).

(** ** Stream records *)

(** A record id ["<ms>-<seq>"] as the store generates it.  The code recovers
    the creation time with [id.split('-').map(Number)[0]], the [ms]
    component. *)
Record StreamId : Type := mkId { ms : Z; seq : N }.

Global Instance StreamId_eq_dec : EqDecision StreamId.
Proof. solve_decision. Defined.

(** The order of ids in a stream: by time, then by sequence number. *)
Definition id_lt (a b : StreamId) : Prop :=
  ms a < ms b \/ (ms a = ms b /\ (seq a < seq b)%N).

Global Instance id_lt_dec a b : Decision (id_lt a b).
Proof. unfold id_lt. apply _. Defined.

(** [[id, fields]] *)
Definition Entry : Type := StreamId * list string.

(** [type XReadGroupResult = [string, [string, string[]][]]] *)
Definition XReadGroupResult : Type := string * list Entry.

(** The [length] of a value of the tuple type [XReadGroupResult]. *)
Definition tuple_length (r : XReadGroupResult) : Z := 2.

(** The id argument of a group read: ['0'] (this consumer's pending
    entries) or ['>'] (entries never delivered to the group). *)
Inductive Selector : Type :=
| Pending
| New.

(** ** The Redis client *)

(** The commands the consumer issues, over a store state [S].  The stream
    key and the group are those of the consumer and are left implicit. *)
Class RedisClient (S : Type) := {
  (** [XGROUP CREATE stream group 0 MKSTREAM] *)
  xgroup_create : S -> option Js.error * S;
  (** [XREADGROUP GROUP g c COUNT count BLOCK block STREAMS stream sel] *)
  xreadgroup : Selector -> Z -> Z -> S -> option (list XReadGroupResult) * S;
  (** [XACK stream group id] *)
  xack : StreamId -> S -> S;
  (** [XRANGE stream - + COUNT 1] *)
  xrange_first : S -> list Entry;
  (** [XTRIM stream MINID id] *)
  xtrim_minid : StreamId -> S -> S;
  (** [XLEN stream] *)
  xlen : S -> Z
}.

(** ** The consumer-group reader ([src/classes/consumer.ts]) *)

(** [ConsumerOptions]; an unset option is [None]. *)
Record ConsumerOptions : Type := {
  batchSize : option Z;
  blockTimeMs : option Z;
  maxRetentionMs : option Z;
  trimIntervalMs : option Z
}.

(** What the caller-supplied callback does with the decoded payload: it
    updates its own state and resolves ([None]) or rejects ([Some e]). *)
Definition Callback `{JsRuntime} (C : Type) : Type :=
  Json -> C -> option Js.error * C.

(** The observable actions of a consumer, in the order they happen; the
    callback action carries the id of the record being processed. *)
Inductive Action `{JsRuntime} : Type :=
| ARead (sel : Selector) (reply : option (list XReadGroupResult))
| ACallback (id : StreamId) (data : Json) (outcome : option Js.error)
| AAck (id : StreamId)
| ATrim (minId : StreamId)
| AError (e : Js.error).

(** The state a consumer runs in. *)
Record World `{JsRuntime} (S C : Type) : Type := mkWorld {
  store : S;            (** the store behind [client] *)
  lastTrim : Z;         (** [this.lastTrim] *)
  closing : bool;       (** [this.closing] *)
  ticks : nat;          (** number of [Date.now()] readings taken *)
  cbst : C;             (** the state of the callback *)
  trace : list Action   (** ghost: the actions so far, oldest first *)
}.
Arguments mkWorld {_ S C}.
Arguments store {_ S C}.
Arguments lastTrim {_ S C}.
Arguments closing {_ S C}.
Arguments ticks {_ S C}.
Arguments cbst {_ S C}.
Arguments trace {_ S C}.

(** The result of running a piece of asynchronous code. *)
Inductive Outcome (A : Type) : Type :=
| Ok (a : A)
| Throw (e : Js.error).
Arguments Ok {A}.
Arguments Throw {A}.

Section Consumer.
Context `{RT : JsRuntime} {S : Type} {client : RedisClient S} {C : Type}.

(** [this.consumerOpts] *)
Variable consumerOpts : ConsumerOptions.
(** [cb] *)
Variable cb : Callback C.
(** The successive readings of [Date.now()]. *)
Variable clock : nat -> Z.

Abbreviation W := (World S C).

(** Code that runs in a world and returns or throws. *)
Definition M (A : Type) : Type := W -> Outcome A * W.

Definition ret {A} (a : A) : M A := fun w => (Ok a, w).
Definition throw {A} (e : Js.error) : M A := fun w => (Throw e, w).
Definition bind {A B} (m : M A) (k : A -> M B) : M B :=
  fun w =>
    match m w with
    | (Ok a, w') => k a w'
    | (Throw e, w') => (Throw e, w')
    end.
(** [try { m } catch (e) { h e }] *)
Definition try_catch {A} (m : M A) (h : Js.error -> M A) : M A :=
  fun w =>
    match m w with
    | (Ok a, w') => (Ok a, w')
    | (Throw e, w') => h e w'
    end.

Notation "'let!' x ':=' m 'in' k" := (bind m (fun x => k))
  (at level 10, x name, m at level 100, k at level 200).
Notation "'do!' m 'in' k" := (bind m (fun _ => k))
  (at level 10, m at level 100, k at level 200).

(** [for (const x of l) { f x }] *)
Fixpoint for_each {A} (l : list A) (f : A -> M unit) : M unit :=
  match l with
  | [] => ret tt
  | x :: rest => do! f x in for_each rest f
  end.

Definition log (a : Action) (w : W) : W :=
  mkWorld (store w) (lastTrim w) (closing w) (ticks w) (cbst w)
          (trace w ++ [a]).

(** [Date.now()] *)
Definition date_now : M Z :=
  fun w =>
    (Ok (clock (ticks w)),
     mkWorld (store w) (lastTrim w) (closing w) (Datatypes.S (ticks w))
             (cbst w) (trace w)).

Definition get_lastTrim : M Z := fun w => (Ok (lastTrim w), w).

Definition set_lastTrim (t : Z) : M unit :=
  fun w =>
    (Ok tt, mkWorld (store w) t (closing w) (ticks w) (cbst w) (trace w)).

Definition set_store (s : S) (w : W) : W :=
  mkWorld s (lastTrim w) (closing w) (ticks w) (cbst w) (trace w).

(** [this.emit('error', e)], a listener for 'error' being registered. *)
Definition emit_error (e : Js.error) : M unit :=
  fun w => (Ok tt, log (AError e) w).

(** [await client.xreadgroup('GROUP', g, c, 'COUNT', batchSize || 1,
    'BLOCK', blockTimeMs || 1000, 'STREAMS', streamName, sel)] *)
Definition client_xreadgroup (sel : Selector)
  : M (option (list XReadGroupResult)) :=
  fun w =>
    let '(reply, s) :=
      xreadgroup sel (Js.or_default (batchSize consumerOpts) 1)
                 (Js.or_default (blockTimeMs consumerOpts) 1000) (store w) in
    (Ok reply, log (ARead sel reply) (set_store s w)).

(** [await client.xack(streamName, consumerGroup, id)] *)
Definition client_xack (id : StreamId) : M unit :=
  fun w => (Ok tt, log (AAck id) (set_store (xack id (store w)) w)).

(** [await client.xrange(streamName, '-', '+', 'COUNT', 1)] *)
Definition client_xrange : M (list Entry) :=
  fun w => (Ok (xrange_first (store w)), w).

(** [await client.xtrim(streamName, 'MINID', `${cutoffTime}-0`)] *)
Definition client_xtrim (minId : StreamId) : M unit :=
  fun w =>
    (Ok tt, log (ATrim minId) (set_store (xtrim_minid minId (store w)) w)).

(** [await cb(data)], for the record [id]. *)
Definition call_cb (id : StreamId) (data : Json) : M unit :=
  fun w =>
    let '(r, c) := cb data (cbst w) in
    let w' :=
      log (ACallback id data r)
          (mkWorld (store w) (lastTrim w) (closing w) (ticks w) c (trace w)) in
    match r with
    | None => (Ok tt, w')
    | Some e => (Throw e, w')
    end.

(** [JSON.parse(jobData['data'])] *)
Definition json_parse (v : value) : M Json :=
  match parse_value v with
  | inr j => ret j
  | inl e => throw e
  end.

(** The text handed to [JSON.parse] for a record: its ['data'] field. *)
Definition payload_text (e : Entry) : string :=
  to_string (obj_get (fields_to_obj (snd e) ∅) "data").

(** The body of the loop of [processMessages], for one [[id, fields]]. *)
Definition processMessage (e : Entry) : M unit :=
  let '(id, fields) := e in
  let jobData := fields_to_obj fields ∅ in
  let! data := json_parse (obj_get jobData "data") in
  try_catch
    (do! call_cb id data in
     client_xack id)
    (fun e => emit_error e).

(** [processMessages(client, streamName, consumerGroup, messages, cb)] *)
Definition processMessages (messages : list XReadGroupResult) : M unit :=
  match messages with
  | (_, entries) :: _ => for_each entries processMessage
  | [] => throw (Js.TypeError "undefined is not iterable")
  end.

(** [trimStream()] *)
Definition trimStream : M unit :=
  let! last := get_lastTrim in
  let! t := date_now in
  if Z.ltb t (last + Js.or_default (trimIntervalMs consumerOpts) 60000)
  then ret tt
  else
    let! t' := date_now in
    do! set_lastTrim t' in
    let! now := date_now in
    let cutoffTime :=
      Js.num_or (Js.sub now (maxRetentionMs consumerOpts))
                (1000 * 60 * 60 * 24) in
    let! oldestMessages := client_xrange in
    match oldestMessages with
    | (oldestMessageId, _) :: _ =>
        let oldestTimestamp := ms oldestMessageId in
        if Z.ltb oldestTimestamp cutoffTime
        then client_xtrim (mkId cutoffTime 0)
        else ret tt
    | [] => ret tt
    end.

(** [pendingResult && pendingResult.length > 1 &&
     pendingResult[1].length > 0] *)
Definition pending_guard (pendingResult : option (list XReadGroupResult))
  : bool :=
  match pendingResult with
  | Some (_ :: second :: _) => Z.ltb 0 (tuple_length second)
  | _ => false
  end.

(** [newResult && newResult.length > 0 && newResult[0].length > 0] *)
Definition new_guard (newResult : option (list XReadGroupResult)) : bool :=
  match newResult with
  | Some (first :: _) => Z.ltb 0 (tuple_length first)
  | _ => false
  end.

(** The pass over a pending reply that passed the guard. *)
Definition pending_pass (pendingResult : list XReadGroupResult) : M unit :=
  let! now := date_now in
  let maxRetentionMs :=
    Js.or_default (maxRetentionMs consumerOpts) (1000 * 60 * 60 * 24) in
  match pendingResult with
  | (_, entries) :: _ =>
      for_each entries (fun '(id, _) =>
        let timestamp := ms id in
        if Z.leb (now - timestamp) maxRetentionMs
        then processMessages pendingResult
        else client_xack id)
  | [] => throw (Js.TypeError "undefined is not iterable")
  end.

(** The part of an iteration after the pending phase found nothing. *)
Definition new_phase : M unit :=
  do! trimStream in
  let! newResult := client_xreadgroup New in
  if new_guard newResult
  then processMessages (default [] newResult)
  else ret tt.

(** The body of [while (!this.closing) { try { ... } catch ... }],
    inside the [try]. *)
Definition consume_body : M unit :=
  let! pendingResult := client_xreadgroup Pending in
  if pending_guard pendingResult
  then pending_pass (default [] pendingResult)   (* then [continue] *)
  else new_phase.

(** One iteration of the loop, with its [catch]. *)
Definition consume_iteration (w : W) : W :=
  snd (try_catch consume_body (fun e => emit_error e) w).

(** [while (!this.closing)], for at most [n] iterations. *)
Fixpoint consume_loop (n : nat) (w : W) : W :=
  match n with
  | O => w
  | Datatypes.S n' =>
      if closing w then w else consume_loop n' (consume_iteration w)
  end.

(** [consume(consumerGroup, cb)]: the group is created, an error other
    than BUSYGROUP ends the task and is emitted; then the loop runs. *)
Definition consume (n : nat) (w : W) : W :=
  let '(r, s) := xgroup_create (store w) in
  let w' := set_store s w in
  match r with
  | Some (Js.Error m as e) | Some (Js.SyntaxError m as e)
  | Some (Js.TypeError m as e) =>
      if Js.includes "BUSYGROUP" m
      then consume_loop n w'
      else log (AError e) w'
  | None => consume_loop n w'
  end.

(** [getLength()] *)
Definition getLength : M Z := fun w => (Ok (xlen (store w)), w).

End Consumer.

(** ** The event-stream listener ([QueueEvents]) *)

Module QueueEvents.

(** The id a raw read starts after: ['$'] (only records appended from now
    on) or a record id. *)
Inductive Cursor : Type :=
| Dollar
| At (id : StreamId).

(** [QueueEventsOptions]: [lastEventId] is a record id when supplied. *)
Record Options : Type := {
  lastEventId : option StreamId;
  blockingTimeout : option Z
}.

(** [type StreamReadRaw = [string, [string, string[]][]][] | null] *)
Definition StreamReadRaw : Type := option (list (string * list Entry)).

(** What is appended to the stream around one read of the listener: the
    records appended before the read is issued, and those appended while
    it blocks. *)
Definition Arrival : Type := list Entry * list Entry.

(** How a call of [run] or of [consumeEvents] stands: it has returned, it
    is suspended in a blocking read, or it has thrown. *)
Inductive Status : Type :=
| Returned
| Suspended
| Failed (e : Js.error).

Section Listener.
Context `{RT : JsRuntime}.

(** The observable actions of a listener: a raw read, the assignment
    [id = events[i][0]] (ghost), and the local events it emits, with
    their topic, the payload object when there is one, and the id. *)
Inductive Action : Type :=
| ARead (from : Cursor) (data : StreamReadRaw)
| ASetId (id : StreamId)
| AEmit (topic : value) (payload : option obj) (id : StreamId).

(** The state of a listener and of the event stream it reads. *)
Record State : Type := mkState {
  running : bool;          (** [this.running] *)
  closing : bool;          (** [this.closing] *)
  stream : list Entry;     (** the event stream, oldest record first *)
  cursor : Cursor;         (** the variable [id] of [consumeEvents] *)
  trace : list Action      (** ghost: the actions so far *)
}.

(** [this.opts] *)
Variable opts : Options.
(** [this.keys.events] *)
Variable key : string.
(** [clientCommandMessageReg.test], a constant of [../utils]. *)
Variable clientCommandMessageReg_test : string -> bool.

Definition set_running (b : bool) (st : State) : State :=
  mkState b (closing st) (stream st) (cursor st) (trace st).

Definition set_cursor (c : Cursor) (st : State) : State :=
  mkState (running st) (closing st) (stream st) c (trace st).

Definition arrive (es : list Entry) (st : State) : State :=
  mkState (running st) (closing st) (stream st ++ es) (cursor st)
          (trace st).

Definition log (l : list Action) (st : State) : State :=
  mkState (running st) (closing st) (stream st) (cursor st)
          (trace st ++ l).

(** Modelled from the spec: the store's [rawRead(stream, blockMs,
    fromId)], "non-group blocking read used by the listener", that
    reads the "records after the cursor".  [before] are the records
    appended since the previous read answered and [during] those
    appended while this read blocks; a read from ['$'] ("only future
    records") sees only the latter, a read from an id sees every record
    after that id; a read that finds nothing times out with [null]. *)
Definition xread (log before during : list Entry) (from : Cursor)
  : StreamReadRaw :=
  let events :=
    match from with
    | Dollar => during
    | At x =>
        filter (fun e : Entry => id_lt x (fst e)) (log ++ before ++ during)
    end in
  match events with
  | [] => None
  | _ :: _ => Some [(key, events)]
  end.

(** [v === k] for a string literal [k]. *)
Definition strict_eq (v : value) (k : string) : bool :=
  match v with
  | VString s => String.eqb s k
  | _ => false
  end.

(** The [switch (args.event)] that decodes the serialized fields. *)
Definition decode (args : obj) : Js.error + obj :=
  let event := obj_get args "event" in
  if strict_eq event "progress" then
    match parse_value (obj_get args "data") with
    | inr j => inr (<["data" := VJson j]> args)
    | inl e => inl e
    end
  else if strict_eq event "completed" then
    match parse_value (obj_get args "returnvalue") with
    | inr j => inr (<["returnvalue" := VJson j]> args)
    | inl e => inl e
    end
  else inr args.

(** [const { event, ...restArgs } = args] and the emissions that
    follow. *)
Definition dispatch (args : obj) (id : StreamId) : list Action :=
  let event := obj_get args "event" in
  let restArgs : obj := delete "event" args in
  if strict_eq event "drained" then
    [AEmit event None id]
  else
    AEmit event (Some restArgs) id ::
    (if truthy (obj_get restArgs "jobId") then
       [AEmit (VString (to_string event +:+ ":" +:+
                        to_string (obj_get restArgs "jobId")))
              (Some restArgs) id]
     else []).

(** [for (let i = 0; i < events.length; i++) { ... }] *)
Fixpoint handle_events (events : list Entry) (st : State)
  : Status * State :=
  match events with
  | [] => (Returned, st)
  | (eid, fields) :: rest =>
      let st1 := log [ASetId eid] (set_cursor (At eid) st) in
      match decode (array2obj fields) with
      | inl e => (Failed e, st1)
      | inr args => handle_events rest (log (dispatch args eid) st1)
      end
  end.

(** [while (!this.closing) { ... }]; each element of [sched] tells what
    is appended to the stream around the read of one iteration.  When
    the schedule is used up the loop is left suspended in its read. *)
Fixpoint consumeEvents_loop (sched : list Arrival) (st : State)
  : Status * State :=
  match sched with
  | [] => (if closing st then Returned else Suspended, st)
  | (before, during) :: sched' =>
      if closing st then (Returned, st)
      else
        let data := xread (stream st) before during (cursor st) in
        let st1 :=
          log [ARead (cursor st) data] (arrive (before ++ during) st) in
        match data with
        | None => consumeEvents_loop sched' st1
        | Some [] => (Failed (Js.TypeError "undefined"), st1)
        | Some ((_, events) :: _) =>
            match handle_events events st1 with
            | (Returned, st2) => consumeEvents_loop sched' st2
            | r => r
            end
        end
  end.

(** [consumeEvents(client)]: [let id = opts.lastEventId || '$'], then
    the loop. *)
Definition consumeEvents (sched : list Arrival) (st : State)
  : Status * State :=
  let id :=
    match lastEventId opts with
    | Some x => At x
    | None => Dollar
    end in
  consumeEvents_loop sched (set_cursor id st).


(** [run()]; [setname] is how [client.client('SETNAME', ...)] ends. *)
Definition run (setname : option Js.error) (sched : list Arrival)
           (st : State) : Status * State :=
  if negb (running st) then
    let st1 := set_running true st in
    let rethrown :=
      match setname with
      | Some (Js.Error m as e) | Some (Js.SyntaxError m as e)
      | Some (Js.TypeError m as e) =>
          if clientCommandMessageReg_test m then None else Some e
      | None => None
      end in
    match rethrown with
    | Some e => (Failed e, set_running false st1)
    | None =>
        match consumeEvents sched st1 with
        | (Failed e, st2) => (Failed e, set_running false st2)
        | r => r
        end
    end
  else (Failed (Js.Error "Queue Events is already running."), st).

(** [close()] *)
Definition close (st : State) : State :=
  if negb (closing st)
  then mkState (running st) true (stream st) (cursor st) (trace st)
  else st.

(** The ids assigned to the cursor, in order. *)
Definition ids_set (l : list Action) : list StreamId :=
  omap (fun a => match a with ASetId i => Some i | _ => None end) l.

(** The ids of the records emitted, in order. *)
Definition ids_emitted (l : list Action) : list StreamId :=
  omap (fun a => match a with AEmit _ _ i => Some i | _ => None end) l.

(** What the listener does for one record when decoding succeeds. *)
Definition actions_of (e : Entry) : list Action :=
  match decode (array2obj (snd e)) with
  | inr args => ASetId (fst e) :: dispatch args (fst e)
  | inl _ => [ASetId (fst e)]
  end.

(** The actions other than reads. *)
Definition writes (l : list Action) : list Action :=
  omap (fun a => match a with ARead _ _ => None | _ => Some a end) l.

(** The order of the records of a stream. *)
Definition entry_lt (a b : Entry) : Prop := id_lt (fst a) (fst b).

(** The records of [l] after the id [c]. *)
Definition after (c : StreamId) (l : list Entry) : list Entry :=
  filter (fun e : Entry => id_lt c (fst e)) l.

(** The cursor once the records [processed] were handled from [c]. *)
Definition cursor_after (c : Cursor) (processed : list Entry) : Cursor :=
  match last processed with
  | Some e => At (fst e)
  | None => c
  end.

(** Where [consumeEvents] starts reading: [opts.lastEventId || '$']. *)
Definition start_cursor : Cursor :=
  match lastEventId opts with
  | Some x => At x
  | None => Dollar
  end.

(** The records a schedule appends, in order. *)
Fixpoint appended (sched : list Arrival) : list Entry :=
  match sched with
  | [] => []
  | (before, during) :: rest => (before ++ during) ++ appended rest
  end.

(** The records a loop started from ['$'] gets to see: those appended
    from the first read on during which a record is appended. *)
Fixpoint from_now (sched : list Arrival) : list Entry :=
  match sched with
  | [] => []
  | (_, []) :: rest => from_now rest
  | (_, during) :: rest => during ++ appended rest
  end.

(** The records a listener is to process, given the stream at its
    start and the schedule: those after [lastEventId], or, started from
    ['$'], those that arrive from its first answered read on. *)
Definition expected (log : list Entry) (sched : list Arrival)
  : list Entry :=
  match lastEventId opts with
  | Some x => after x (log ++ appended sched)
  | None => from_now sched
  end.

End Listener.

End QueueEvents.

(** ** The stream store *)

(** Modelled from the spec: the stream store is an external service
    ("append-only log with group-aware delivery, acknowledgment, range
    scan, trim, length"), of which the sources only show the commands
    sent.  One stream with one consumer group and one consumer: the log,
    the id of the last record delivered to the group, and the pending
    entries ("delivered to a group consumer but not yet acknowledged;
    remains re-deliverable until acked"), kept with their fields. *)
Record Stream : Type := mkStream {
  skey : string;
  has_group : bool;
  entries : list Entry;
  last_delivered : StreamId;
  pel : list Entry
}.

(** Modelled from the spec: [createGroup], whose answer when the group
    exists is the BUSYGROUP error that [consume] absorbs. *)
Definition stream_create (s : Stream) : option Js.error * Stream :=
  if has_group s
  then (Some (Js.Error "BUSYGROUP Consumer Group name already exists"), s)
  else (None, mkStream (skey s) true (entries s) (mkId 0 0) (pel s)).

(** Modelled from the spec: [readAsGroup], "selector ∈
    {pending-for-this-consumer, new-only} → zero-or-more (id, flatFields)
    tuples, or empty on timeout".  A read with ['0'] answers at once with
    the consumer's pending entries (an empty list when there are none), a
    single stream result as the read names one stream; a read with ['>']
    delivers the
    oldest records after the last delivered one, which become pending, and
    times out with [null] when there are none.  Both are bounded by
    [count]. *)
Definition stream_readgroup (sel : Selector) (count block : Z) (s : Stream)
  : option (list XReadGroupResult) * Stream :=
  match sel with
  | Pending => (Some [(skey s, take (Z.to_nat count) (pel s))], s)
  | New =>
      let fresh :=
        take (Z.to_nat count)
             (filter (fun e : Entry => id_lt (last_delivered s) (fst e))
                     (entries s)) in
      match last fresh with
      | None => (None, s)
      | Some e =>
          (Some [(skey s, fresh)],
           mkStream (skey s) (has_group s) (entries s) (fst e)
                    (pel s ++ fresh))
      end
  end.

(** Modelled from the spec: "Ack: acknowledgment that a delivered record
    was fully processed, removing it from the pending set." *)
Definition stream_ack (id : StreamId) (s : Stream) : Stream :=
  mkStream (skey s) (has_group s) (entries s) (last_delivered s)
           (filter (fun e : Entry => fst e <> id) (pel s)).

(** Modelled from the spec: [rangeScan], "used to find the oldest
    record". *)
Definition stream_first (s : Stream) : list Entry := take 1 (entries s).

(** Modelled from the spec: "Trim: deletion of records below a given
    id/timestamp". *)
Definition stream_trim (minId : StreamId) (s : Stream) : Stream :=
  mkStream (skey s) (has_group s)
           (filter (fun e : Entry => ~ id_lt (fst e) minId) (entries s))
           (last_delivered s) (pel s).

Global Instance stream_client : RedisClient Stream := {
  xgroup_create := stream_create;
  xreadgroup := stream_readgroup;
  xack := stream_ack;
  xrange_first := stream_first;
  xtrim_minid := stream_trim;
  xlen := fun s => Z.of_nat (length (entries s))
}.

(** A client that answers the group reads from a script: any sequence of
    replies of the declared type [XReadGroupResult[] | null].  It serves to
    run the consumer on a reply as such. *)
Record Script : Type := mkScript {
  replies : list (option (list XReadGroupResult))
}.

Global Instance script_client : RedisClient Script := {
  xgroup_create := fun s => (None, s);
  xreadgroup := fun _ _ _ s =>
    match replies s with
    | [] => (None, s)
    | r :: rest => (r, mkScript rest)
    end;
  xack := fun _ s => s;
  xrange_first := fun _ => [];
  xtrim_minid := fun _ s => s;
  xlen := fun _ => 0
}.

(** ** A runtime to run the code on concrete records *)

Module Sample.

Definition digit (a : Ascii.ascii) : option Z :=
  let n := Z.of_N (Ascii.N_of_ascii a) in
  if Z.leb 48 n && Z.leb n 57 then Some (n - 48) else None.

Fixpoint digits (s : string) (acc : Z) : option Z :=
  match s with
  | EmptyString => Some acc
  | String a rest =>
      match digit a with
      | Some d => digits rest (10 * acc + d)
      | None => None
      end
  end.

(** A parser that accepts the unsigned decimal numerals and rejects every
    other text.  It is applied below to numerals and to texts that are
    not JSON, on which it does what [JSON.parse] does. *)
Definition parse_numeral (s : string) : option Z :=
  match s with
  | EmptyString => None
  | String a rest =>
      if Ascii.eqb a (Ascii.ascii_of_N 48) && negb (String.eqb rest "")
      then None
      else digits s 0
  end.

Global Instance numerals : JsRuntime := {
  Json := Z;
  JSON_parse := parse_numeral;
  Json_truthy := fun z => negb (Z.eqb z 0);
  Json_toString := fun z => pretty z
}.

(** A callback that resolves on every payload and counts its calls. *)
Definition cb_ok : Callback nat := fun _ n => (None, Datatypes.S n).


Definition options (retention : option Z) : ConsumerOptions :=
  {| batchSize := Some 10; blockTimeMs := None;
     maxRetentionMs := retention; trimIntervalMs := None |}.

Definition record (t : Z) (data : string) : Entry :=
  (mkId t 0, ["data"; data]).

Definition start {S : Type} (s : S) : World S nat :=
  mkWorld s 0 false 0%nat 0%nat [].

(** The clock stands at [t]. *)
Definition at_time (t : Z) : nat -> Z := fun _ => t.

(** A stream on which record 1000 was delivered and is pending, and
    record 2000 was never delivered. *)
Definition backlog : Stream :=
  mkStream "jobs" true [record 1000 "1"; record 2000 "2"] (mkId 1000 0)
           [record 1000 "1"].

(** A stream whose only record was delivered and is pending. *)
Definition one_pending : Stream :=
  mkStream "jobs" true [record 1000 "1"] (mkId 1000 0) [record 1000 "1"].



(** A pending reply with two stream results, the first holding the
    records [es]. *)
Definition two_results (es : list Entry) : Script :=
  mkScript [Some [("jobs", es); ("jobs", [])]].

(** A stream that holds one record, created at time 50000000. *)
Definition early : Stream :=
  mkStream "jobs" true [record 50000000 "1"] (mkId 0 0) [].

(** Replies for one iteration: nothing pending, then three new records
    of which the second does not hold JSON. *)
Definition with_bad_record : Script :=
  mkScript [Some [("jobs", [])];
            Some [("jobs", [record 1 "1"; record 2 "oops"; record 3 "3"])]].

Definition listener_options (from : option StreamId) : QueueEvents.Options :=
  {| QueueEvents.lastEventId := from;
     QueueEvents.blockingTimeout := Some 10000 |}.

Definition completed (t : Z) (job value : string) : Entry :=
  (mkId t 0, ["event"; "completed"; "jobId"; job; "returnvalue"; value]).

Definition drained (t : Z) : Entry := (mkId t 0, ["event"; "drained"]).

(** A listener that is not running yet, on a stream of three events. *)
Definition idle : QueueEvents.State :=
  QueueEvents.mkState false false
    [completed 3 "a" "1"; completed 7 "b" "42"; drained 8]
    QueueEvents.Dollar [].

(** A listener whose loop is running. *)
Definition busy : QueueEvents.State :=
  QueueEvents.mkState true false [completed 3 "a" "1"]
    (QueueEvents.At (mkId 3 0)) [].

End Sample.

(** ** Reasoning about consumer code

    [sound Q m]: whatever world [m] runs in, it only appends to the trace,
    and the world before, the actions appended and the world after are
    related by [Q]. *)

Section Logic.
Context `{RT : JsRuntime} {S : Type} {client : RedisClient S} {C : Type}.
Variable consumerOpts : ConsumerOptions.
Variable cb : Callback C.
Variable clock : nat -> Z.

Abbreviation W := (World S C).

Definition sound_at {A} (Q : W -> list Action -> W -> Prop)
           (m : M A) (w : W) : Prop :=
  exists delta, trace (snd (m w)) = trace w ++ delta /\ Q w delta (snd (m w)).

Definition sound {A} (Q : W -> list Action -> W -> Prop) (m : M A) : Prop :=
  forall w, sound_at Q m w.

(** The retention the pending pass applies. *)
Definition retention : Z :=
  Js.or_default (maxRetentionMs consumerOpts) (1000 * 60 * 60 * 24).

(** The interval [trimStream] applies between two trims. *)
Definition trim_interval : Z :=
  Js.or_default (trimIntervalMs consumerOpts) 60000.

(** The cutoff [trimStream] computes from the clock reading [now]. *)
Definition cutoff (now : Z) : Z :=
  Js.num_or (Js.sub now (maxRetentionMs consumerOpts)) (1000 * 60 * 60 * 24).

(** A record is stale at time [now]. *)
Definition stale (now : Z) (id : StreamId) : Prop :=
  retention < now - ms id.

(** The traces in which every acknowledgment either directly follows a
    resolved callback on the same record or is of a record for which [P]
    holds, and every rejected callback is followed by its report. *)
Inductive steps (P : StreamId -> Prop) : list Action -> Prop :=
| steps_nil : steps P []
| steps_read sel reply l :
    steps P l -> steps P (ARead sel reply :: l)
| steps_done id d l :
    steps P l -> steps P (ACallback id d None :: AAck id :: l)
| steps_rejected id d e l :
    steps P l -> steps P (ACallback id d (Some e) :: AError e :: l)
| steps_discard id l :
    P id -> steps P l -> steps P (AAck id :: l)
| steps_trim minId l :
    steps P l -> steps P (ATrim minId :: l)
| steps_error e l :
    steps P l -> steps P (AError e :: l).

(** [steps] as a relation of the program logic. *)
Definition Qsteps (P : StreamId -> Prop)
  : W -> list Action -> W -> Prop :=
  fun _ delta _ => steps P delta.

(** The callback invocations of a trace, as record ids. *)
Definition callbacks (l : list Action) : list StreamId :=
  omap (fun a => match a with ACallback i _ _ => Some i | _ => None end) l.

(** The acknowledgments of a trace, as record ids. *)
Definition acks (l : list Action) : list StreamId :=
  omap (fun a => match a with AAck i => Some i | _ => None end) l.

(** The number of acknowledgments of [id] in a trace. *)
Definition ack_count (id : StreamId) (l : list Action) : nat :=
  length (filter (fun i => i = id) (acks l)).



End Logic.


(** ** Further notions *)

(** The field list [k1, v1, k2, v2, ...] of a record with the pairs
    [kvs]. *)
Definition flatten (kvs : list (string * string)) : list string :=
  flat_map (fun p => [fst p; snd p]) kvs.

(** The order of records by creation time. *)
Definition by_time (a b : Entry) : Prop := ms (fst a) <= ms (fst b).

(** In a trace of the listener read from the left with [cur] the id last
    assigned to the cursor: every emission carries that id. *)
Fixpoint tagged `{RT : JsRuntime} (cur : option StreamId)
    (l : list QueueEvents.Action) : Prop :=
  match l with
  | [] => True
  | QueueEvents.ARead _ _ :: rest => tagged cur rest
  | QueueEvents.ASetId i :: rest => tagged (Some i) rest
  | QueueEvents.AEmit _ _ i :: rest => cur = Some i /\ tagged cur rest
  end.

(** What the action that follows a callback must be: the acknowledgment
    of the record when the callback resolved, the report of the error
    when it rejected. *)
Definition after_callback `{RT : JsRuntime} (id : StreamId)
    (outcome : option Js.error) : Action :=
  match outcome with
  | None => AAck id
  | Some e => AError e
  end.

(** [(error as Error).message] *)
Definition error_message (e : Js.error) : string :=
  match e with
  | Js.Error m | Js.SyntaxError m | Js.TypeError m => m
  end.

(** * Verification *)

(** ** The program logic *)

Section LogicFacts.
Context `{RT : JsRuntime} {S : Type} {client : RedisClient S} {C : Type}.
Variable consumerOpts : ConsumerOptions.
Variable cb : Callback C.
Variable clock : nat -> Z.
Variable Q : World S C -> list Action -> World S C -> Prop.

Hypothesis Q_silent :
  forall w w', store w' = store w -> Q w [] w'.
Hypothesis Q_trans :
  forall w d1 w1 d2 w2, Q w d1 w1 -> Q w1 d2 w2 -> Q w (d1 ++ d2) w2.

Lemma sound_silent {A} (m : M A) w :
  store (snd (m w)) = store w -> trace (snd (m w)) = trace w ->
  sound_at Q m w.
Proof.
  intros Hs Ht. exists []. rewrite app_nil_r. split; [exact Ht|].
  apply Q_silent, Hs.
Qed.

Lemma sound_ret {A} (a : A) : sound Q (ret a).
Proof. intros w. apply sound_silent; reflexivity. Qed.

Lemma sound_throw {A} e : sound Q (throw (A := A) e).
Proof. intros w. apply sound_silent; reflexivity. Qed.

Lemma sound_date_now : sound Q (date_now clock).
Proof. intros w. apply sound_silent; reflexivity. Qed.

Lemma sound_get_lastTrim : sound Q get_lastTrim.
Proof. intros w. apply sound_silent; reflexivity. Qed.

Lemma sound_set_lastTrim t : sound Q (set_lastTrim t).
Proof. intros w. apply sound_silent; reflexivity. Qed.

Lemma sound_xrange : sound Q client_xrange.
Proof. intros w. apply sound_silent; reflexivity. Qed.


Lemma sound_bind {A B} (m : M A) (k : A -> M B) w :
  sound_at Q m w ->
  (forall a w1, m w = (Ok a, w1) -> sound_at Q (k a) w1) ->
  sound_at Q (bind m k) w.
Proof.
  intros (d1 & Ht1 & HQ1) Hk. unfold sound_at, bind in *.
  destruct (m w) as [[a|e] w1] eqn:Em; simpl in *.
  - destruct (Hk a w1 eq_refl) as (d2 & Ht2 & HQ2).
    exists (d1 ++ d2). rewrite Ht2, Ht1, app_assoc. split; [reflexivity|].
    eapply Q_trans; eassumption.
  - exists d1. split; assumption.
Qed.

Lemma sound_try_catch {A} (m : M A) (h : Js.error -> M A) w :
  sound_at Q m w ->
  (forall e w1, m w = (Throw e, w1) -> sound_at Q (h e) w1) ->
  sound_at Q (try_catch m h) w.
Proof.
  intros (d1 & Ht1 & HQ1) Hh. unfold sound_at, try_catch in *.
  destruct (m w) as [[a|e] w1] eqn:Em; simpl in *.
  - exists d1. split; assumption.
  - destruct (Hh e w1 eq_refl) as (d2 & Ht2 & HQ2).
    exists (d1 ++ d2). rewrite Ht2, Ht1, app_assoc. split; [reflexivity|].
    eapply Q_trans; eassumption.
Qed.

Lemma sound_for_each {A} (l : list A) (f : A -> M unit) :
  (forall x, In x l -> sound Q (f x)) -> sound Q (for_each l f).
Proof.
  induction l as [|x l IH]; intros Hf w; simpl.
  - apply sound_ret.
  - apply sound_bind.
    + apply Hf. now left.
    + intros _ w1 _. apply IH. intros y Hy. apply Hf. now right.
Qed.


(** The rules for the commands that act on the store are assumed of
    [Q] here and proved for each [Q] of interest below. *)
Hypothesis Q_read : forall sel, sound Q (client_xreadgroup consumerOpts sel).
Hypothesis Q_trim : forall minId, sound Q (client_xtrim minId).
Hypothesis Q_error : forall e, sound Q (emit_error e).
Hypothesis Q_message : forall e, sound Q (processMessage cb e).

Lemma sound_processMessages messages :
  sound Q (processMessages cb messages).
Proof.
  destruct messages as [|[name es] rest]; simpl.
  - apply sound_throw.
  - apply sound_for_each. intros e _. apply Q_message.
Qed.

Lemma sound_trimStream : sound Q (trimStream consumerOpts clock).
Proof.
  intros w. unfold trimStream.
  apply sound_bind; [apply sound_get_lastTrim|]. intros last w1 _.
  apply sound_bind; [apply sound_date_now|]. intros t w2 _.
  destruct (Z.ltb _ _); [apply sound_ret|].
  apply sound_bind; [apply sound_date_now|]. intros t' w3 _.
  apply sound_bind; [apply sound_set_lastTrim|]. intros _ w4 _.
  apply sound_bind; [apply sound_date_now|]. intros now w5 _.
  apply sound_bind; [apply sound_xrange|]. intros old w6 _.
  destruct old as [|[oid ofs] old]; [apply sound_ret|].
  destruct (Z.ltb _ _); [apply Q_trim | apply sound_ret].
Qed.

Lemma sound_new_phase : sound Q (new_phase consumerOpts cb clock).
Proof.
  intros w. unfold new_phase.
  apply sound_bind; [apply sound_trimStream|]. intros _ w1 _.
  apply sound_bind; [apply Q_read|]. intros newResult w2 _.
  destruct (new_guard newResult);
    [apply sound_processMessages | apply sound_ret].
Qed.

(** The pending pass acknowledges a record itself only when the record
    is stale at the time the pass reads the clock. *)
Variable P : StreamId -> Prop.
Hypothesis Q_discard : forall id, P id -> sound Q (client_xack id).

Lemma sound_pending_pass pendingResult w :
  (forall id, stale consumerOpts (clock (ticks w)) id -> P id) ->
  sound_at Q (pending_pass consumerOpts cb clock pendingResult) w.
Proof.
  intros HP. unfold pending_pass.
  apply sound_bind; [apply sound_date_now|]. intros now w1 Hnow.
  injection Hnow as <- <-.
  destruct pendingResult as [|[name es] rest]; [apply sound_throw|].
  apply sound_for_each. intros [id fs] _ w2.
  destruct (Z.leb _ _) eqn:Hage.
  - apply sound_processMessages.
  - apply Q_discard, HP. unfold stale, retention.
    apply Z.leb_gt in Hage. lia.
Qed.

Lemma sound_consume_body w :
  (forall id, stale consumerOpts (clock (ticks w)) id -> P id) ->
  sound_at Q (consume_body consumerOpts cb clock) w.
Proof.
  intros HP. unfold consume_body.
  apply sound_bind; [apply Q_read|]. intros pendingResult w1 Hread.
  destruct (pending_guard pendingResult).
  - apply sound_pending_pass. intros id.
    replace (ticks w1) with (ticks w); [apply HP|].
    unfold client_xreadgroup in Hread.
    destruct (xreadgroup _ _ _ _) in Hread. now injection Hread as _ <-.
  - apply sound_new_phase.
Qed.

Lemma sound_consume_iteration w :
  (forall id, stale consumerOpts (clock (ticks w)) id -> P id) ->
  exists delta,
    trace (consume_iteration consumerOpts cb clock w) = trace w ++ delta /\
    Q w delta (consume_iteration consumerOpts cb clock w).
Proof.
  intros HP. unfold consume_iteration.
  apply (sound_try_catch _ _ w).
  - now apply sound_consume_body.
  - intros e w1 _. apply Q_error.
Qed.

Lemma sound_consume_loop n :
  (forall (w : World S C) id,
     stale consumerOpts (clock (ticks w)) id -> P id) ->
  forall w, exists delta,
    trace (consume_loop consumerOpts cb clock n w) = trace w ++ delta /\
    Q w delta (consume_loop consumerOpts cb clock n w).
Proof.
  intros HP. induction n as [|n IH]; intros w; simpl.
  - exists []. rewrite app_nil_r. split; [reflexivity|]. now apply Q_silent.
  - destruct (closing w).
    + exists []. rewrite app_nil_r. split; [reflexivity|]. now apply Q_silent.
    + destruct (sound_consume_iteration w (HP w)) as (d1 & Ht1 & HQ1).
      destruct (IH (consume_iteration consumerOpts cb clock w))
        as (d2 & Ht2 & HQ2).
      exists (d1 ++ d2). rewrite Ht2, Ht1, app_assoc.
      split; [reflexivity|]. eapply Q_trans; eassumption.
Qed.

End LogicFacts.

(** ** Acknowledgments are justified, for any client *)

Section Justified.
Context `{RT : JsRuntime} {S : Type} {client : RedisClient S} {C : Type}.
Variable consumerOpts : ConsumerOptions.
Variable cb : Callback C.
Variable clock : nat -> Z.
Variable P : StreamId -> Prop.

Lemma steps_app l1 l2 : steps P l1 -> steps P l2 -> steps P (l1 ++ l2).
Proof. induction 1; intros H2; simpl; try constructor; auto. Qed.


Lemma Qsteps_message e : sound (Qsteps P) (processMessage cb e).
Proof.
  intros w. destruct e as [id fields].
  unfold sound_at, Qsteps, processMessage, bind, try_catch, json_parse,
    call_cb, client_xack, emit_error, ret, throw.
  destruct (parse_value _) as [err|data]; simpl.
  - exists []. rewrite app_nil_r. split; [reflexivity|constructor].
  - destruct (cb data (cbst w)) as [[err|] c]; simpl.
    + exists [ACallback id data (Some err); AError err].
      rewrite <- app_assoc. split; [reflexivity|repeat constructor].
    + exists [ACallback id data None; AAck id].
      rewrite <- app_assoc. split; [reflexivity|repeat constructor].
Qed.

Lemma Qsteps_one {A} (m : M (S := S) (C := C) A) a :
  (forall w, trace (snd (m w)) = trace w ++ [a]) ->
  steps P [a] -> sound (Qsteps P) m.
Proof. intros Ht Ha w. exists [a]. split; [apply Ht|exact Ha]. Qed.

Lemma Qsteps_read sel :
  sound (S := S) (C := C) (Qsteps P) (client_xreadgroup consumerOpts sel).
Proof.
  intros w0. unfold sound_at, Qsteps, client_xreadgroup.
  destruct (xreadgroup _ _ _ _) as [reply s]. simpl.
  exists [ARead sel reply]. split; [reflexivity|repeat constructor].
Qed.

Lemma steps_iteration (w : World S C) :
  (forall id, stale consumerOpts (clock (ticks w)) id -> P id) ->
  exists delta,
    trace (consume_iteration consumerOpts cb clock w) = trace w ++ delta /\
    steps P delta.
Proof.
  intros HP.
  apply (sound_consume_iteration consumerOpts cb clock (Qsteps P))
    with (P := P); try assumption.
  - intros; constructor.
  - intros ? ? ? ? ?. apply steps_app.
  - apply Qsteps_read.
  - intros m. eapply Qsteps_one; [reflexivity|repeat constructor].
  - intros e. eapply Qsteps_one; [reflexivity|repeat constructor].
  - apply Qsteps_message.
  - intros id Hid. eapply Qsteps_one; [reflexivity|].
    constructor; [exact Hid|constructor].
Qed.

Lemma steps_loop n (w : World S C) :
  (forall (w0 : World S C) id,
     stale consumerOpts (clock (ticks w0)) id -> P id) ->
  exists delta,
    trace (consume_loop consumerOpts cb clock n w) = trace w ++ delta /\
    steps P delta.
Proof.
  intros HP.
  apply (sound_consume_loop consumerOpts cb clock (Qsteps P)) with (P := P);
    try assumption.
  - intros; constructor.
  - intros ? ? ? ? ?. apply steps_app.
  - intros sel w0. unfold sound_at, Qsteps, client_xreadgroup.
    destruct (xreadgroup _ _ _ _) as [reply s]. simpl.
    exists [ARead sel reply]. split; [reflexivity|repeat constructor].
  - intros m. eapply Qsteps_one; [reflexivity|repeat constructor].
  - intros e. eapply Qsteps_one; [reflexivity|repeat constructor].
  - apply Qsteps_message.
  - intros id Hid. eapply Qsteps_one; [reflexivity|].
    constructor; [exact Hid|constructor].
Qed.

End Justified.

(** ** Pending entries on the stream store *)

Section PendingKept.
Context `{RT : JsRuntime} {C : Type}.
Variable consumerOpts : ConsumerOptions.
Variable cb : Callback C.
Variable clock : nat -> Z.








End PendingKept.

(** ** On the stream store no record is discarded *)

Section StreamOnly.
Context `{RT : JsRuntime} {C : Type}.
Variable consumerOpts : ConsumerOptions.
Variable cb : Callback C.
Variable clock : nat -> Z.
Variable P : StreamId -> Prop.



End StreamOnly.



(** ** A parse error escapes [processMessages] *)

Section ParseError.
Context `{RT : JsRuntime} {S : Type} {client : RedisClient S} {C : Type}.
Variable consumerOpts : ConsumerOptions.
Variable cb : Callback C.
Variable clock : nat -> Z.

Lemma processMessage_returns (e : Entry) (w : World S C) :
  is_Some (JSON_parse (payload_text e)) ->
  exists w', processMessage cb e w = (Ok tt, w').
Proof.
  intros [j Hj]. destruct e as [id fields].
  unfold processMessage, json_parse, parse_value, payload_text in *.
  simpl in Hj. rewrite Hj.
  unfold bind, ret, try_catch, call_cb, client_xack, emit_error.
  destruct (cb j (cbst w)) as [[err|] c]; simpl; eauto.
Qed.

Lemma processMessage_throws (e : Entry) (w : World S C) :
  JSON_parse (payload_text e) = None ->
  processMessage cb e w = (Throw (Js.SyntaxError (payload_text e)), w).
Proof.
  intros Hj. destruct e as [id fields].
  unfold processMessage, json_parse, parse_value, payload_text in *.
  simpl in Hj. now rewrite Hj.
Qed.

Lemma for_each_prefix (pre : list Entry) (w : World S C) :
  Forall (fun e => is_Some (JSON_parse (payload_text e))) pre ->
  exists w1,
    for_each pre (processMessage cb) w = (Ok tt, w1) /\
    forall bad post,
      JSON_parse (payload_text bad) = None ->
      for_each (pre ++ bad :: post) (processMessage cb) w =
      (Throw (Js.SyntaxError (payload_text bad)), w1).
Proof.
  intros Hpre. revert w.
  induction Hpre as [|e pre He Hpre IH]; intros w; simpl.
  - exists w. split; [reflexivity|]. intros bad post Hbad.
    unfold bind. now rewrite processMessage_throws.
  - destruct (processMessage_returns e w He) as (w0 & Hw0).
    destruct (IH w0) as (w1 & Hok & Hthrow).
    exists w1. unfold bind. rewrite Hw0. split; [exact Hok|].
    intros bad post Hbad. now apply Hthrow.
Qed.

Lemma processMessage_trace (e : Entry) (w : World S C) :
  is_Some (JSON_parse (payload_text e)) ->
  exists d r w1,
    processMessage cb e w = (Ok tt, w1) /\
    trace w1 =
      trace w ++ ACallback (fst e) d r ::
                 match r with
                 | None => [AAck (fst e)]
                 | Some err => [AError err]
                 end.
Proof.
  intros [j Hj]. destruct e as [id fields].
  unfold processMessage, json_parse, parse_value, payload_text in *.
  simpl in Hj. rewrite Hj.
  unfold bind, ret, try_catch, call_cb, client_xack, emit_error.
  destruct (cb j (cbst w)) as [[err|] c]; simpl.
  - eexists j, (Some err), _. split; [reflexivity|].
    simpl. now rewrite <- app_assoc.
  - eexists j, None, _. split; [reflexivity|].
    simpl. now rewrite <- app_assoc.
Qed.

(** On its own [processMessages] invokes the callback once on each record
    of a batch that parses, in order, and acknowledges a record at most
    once, after its callback. *)
Lemma processMessages_once (name : string) (es : list Entry)
    (rest : list XReadGroupResult) (w : World S C) :
  Forall (fun e => is_Some (JSON_parse (payload_text e))) es ->
  exists delta,
    trace (snd (processMessages cb ((name, es) :: rest) w)) =
      trace w ++ delta /\
    callbacks delta = map fst es /\
    acks delta `sublist_of` map fst es.
Proof.
  intros Hes. simpl. revert w.
  induction Hes as [|e es He Hes IH]; intros w; simpl.
  - exists []. now rewrite app_nil_r.
  - destruct (processMessage_trace e w He) as (d & r & w1 & Heq & Ht1).
    unfold bind. rewrite Heq.
    destruct (IH w1) as (delta & Ht & Hc & Ha).
    exists (ACallback (fst e) d r ::
            match r with
            | None => [AAck (fst e)]
            | Some err => [AError err]
            end ++ delta).
    split; [rewrite Ht, Ht1, <- app_assoc; reflexivity|].
    destruct r as [err|].
    + change (callbacks delta = map fst es) in Hc.
      split; [exact (f_equal (cons (fst e)) Hc)|].
      apply sublist_cons. exact Ha.
    + split; [exact (f_equal (cons (fst e)) Hc)|].
      apply sublist_skip. exact Ha.
Qed.

End ParseError.

Lemma trimStream_returns `{RT : JsRuntime} {S : Type} {client : RedisClient S}
    {C : Type} (consumerOpts : ConsumerOptions) (clock : nat -> Z)
    (w : World S C) :
  fst (trimStream consumerOpts clock w) = Ok tt.
Proof.
  unfold trimStream, bind, get_lastTrim, date_now, set_lastTrim,
    client_xrange, client_xtrim, ret. simpl.
  destruct (Z.ltb _ _); [reflexivity|]. simpl.
  destruct (xrange_first _) as [|[oid ofs] old]; [reflexivity|].
  destruct (Z.ltb _ _); reflexivity.
Qed.

(** C10: when a batch holds a record whose ['data'] field [JSON.parse]
    rejects, after records that it accepts, [processMessages] throws the
    [SyntaxError] in the very world that processing the earlier records
    alone produces: no callback and no acknowledgment for that record or a
    later one.  In an iteration of the consume loop that reads such a batch
    as new records the error is emitted on 'error' and the loop goes on
    with the next iteration. *)
Theorem parse_error_skips_rest `{RT : JsRuntime} {S : Type}
    {client : RedisClient S} {C : Type}
    (consumerOpts : ConsumerOptions) (cb : Callback C) (clock : nat -> Z)
    (name : string) (pre post : list Entry) (bad : Entry)
    (rest : list XReadGroupResult) (w : World S C) :
  Forall (fun e => is_Some (JSON_parse (payload_text e))) pre ->
  JSON_parse (payload_text bad) = None ->
  exists w1,
    processMessages cb [(name, pre)] w = (Ok tt, w1) /\
    processMessages cb ((name, pre ++ bad :: post) :: rest) w =
      (Throw (Js.SyntaxError (payload_text bad)), w1) /\
    forall w0 wa reply,
      client_xreadgroup consumerOpts Pending w0 = (Ok reply, wa) ->
      pending_guard reply = false ->
      client_xreadgroup consumerOpts New
        (snd (trimStream consumerOpts clock wa)) =
        (Ok (Some ((name, pre ++ bad :: post) :: rest)), w) ->
      consume_iteration consumerOpts cb clock w0 =
        log (AError (Js.SyntaxError (payload_text bad))) w1 /\
      forall n, closing w0 = false ->
        consume_loop consumerOpts cb clock (Datatypes.S n) w0 =
        consume_loop consumerOpts cb clock n
          (log (AError (Js.SyntaxError (payload_text bad))) w1).
Proof.
  intros Hpre Hbad.
  destruct (for_each_prefix cb pre w Hpre) as (w1 & Hok & Hthrow).
  exists w1. split; [exact Hok|]. split; [now apply Hthrow|].
  intros w0 wa reply Hread Hguard Hnew.
  assert (Hit : consume_iteration consumerOpts cb clock w0 =
                log (AError (Js.SyntaxError (payload_text bad))) w1).
  { unfold consume_iteration, try_catch, consume_body, bind at 1.
    rewrite Hread, Hguard. unfold new_phase, bind at 1.
    pose proof (trimStream_returns consumerOpts clock wa) as Htrim.
    destruct (trimStream consumerOpts clock wa) as [r wt].
    simpl in Htrim, Hnew. subst r.
    unfold bind. rewrite Hnew. simpl.
    rewrite (Hthrow bad post Hbad). reflexivity. }
  split; [exact Hit|].
  intros n Hclosing. simpl. now rewrite Hclosing, Hit.
Qed.

(** ** The listener *)

(** C9: [run] on an instance that is already running fails with the error
    "Queue Events is already running." and leaves the whole state of the
    instance as it was: the running flag, the cursor and the stream of the
    loop in progress, and its trace. *)
Theorem run_while_running_fails `{RT : JsRuntime}
    (opts : QueueEvents.Options) (key : string) (reg : string -> bool)
    (setname : option Js.error) (sched : list QueueEvents.Arrival)
    (st : QueueEvents.State) :
  QueueEvents.running st = true ->
  QueueEvents.run opts key reg setname sched st =
  (QueueEvents.Failed (Js.Error "Queue Events is already running."), st).
Proof. intros Hrun. unfold QueueEvents.run. now rewrite Hrun. Qed.

Lemma set_prop_plain `{RT : JsRuntime} (x : string) (v : value) (acc : obj) :
  (forall j, v <> VJson j) ->
  (forall k j, acc !! k <> Some (VJson j)) ->
  forall k j, set_prop x v acc !! k <> Some (VJson j).
Proof.
  intros Hv Hacc k j. unfold set_prop.
  destruct (String.eqb x "__proto__"); [apply Hacc|].
  destruct (decide (x = k)) as [->|Hne].
  - rewrite lookup_insert_eq. intros Heq. injection Heq as ->.
    now apply (Hv j).
  - rewrite lookup_insert_ne by exact Hne. apply Hacc.
Qed.

Lemma fields_to_obj_plain `{RT : JsRuntime} (fields : list string) :
  forall acc : obj,
    (forall k j, acc !! k <> Some (VJson j)) ->
    (forall k j, fields_to_obj fields acc !! k <> Some (VJson j)) /\
    (forall x k j, fields_to_obj (x :: fields) acc !! k <> Some (VJson j)).
Proof.
  induction fields as [|v fields IH]; intros acc Hacc.
  - split; [exact Hacc|]. intros x k j. simpl.
    apply set_prop_plain; [discriminate|exact Hacc].
  - split.
    + intros k j. now apply IH.
    + intros x k j. simpl. apply IH.
      apply set_prop_plain; [discriminate|exact Hacc].
Qed.

Lemma decode_jobId `{RT : JsRuntime} (fields : list string) (args : obj) :
  QueueEvents.decode (array2obj fields) = inr args ->
  args !! "jobId" = array2obj fields !! "jobId" /\
  forall j, args !! "jobId" <> Some (VJson j).
Proof.
  intros Hdec.
  assert (Hplain : forall j, array2obj fields !! "jobId" <> Some (VJson j)).
  { intros j. apply (fields_to_obj_plain fields ∅). intros k j'.
    now rewrite lookup_empty. }
  assert (Heq : args !! "jobId" = array2obj fields !! "jobId").
  { unfold QueueEvents.decode in Hdec.
    destruct (QueueEvents.strict_eq _ "progress").
    - destruct (parse_value _); [discriminate|]. injection Hdec as <-.
      now rewrite lookup_insert_ne.
    - destruct (QueueEvents.strict_eq _ "completed").
      + destruct (parse_value _); [discriminate|]. injection Hdec as <-.
        now rewrite lookup_insert_ne.
      + now injection Hdec as <-. }
  split; [exact Heq|]. intros j. rewrite Heq. apply Hplain.
Qed.

Lemma dispatch_cases `{RT : JsRuntime} (id : StreamId)
    (fields : list string) (args : obj) :
  QueueEvents.decode (array2obj fields) = inr args ->
  let kind := obj_get args "event" in
  let payload : obj := delete "event" args in
  (kind = VString "drained" ->
   QueueEvents.dispatch args id = [QueueEvents.AEmit kind None id]) /\
  (kind <> VString "drained" ->
   (forall j, payload !! "jobId" = Some (VString j) -> j <> "" ->
      QueueEvents.dispatch args id =
      [QueueEvents.AEmit kind (Some payload) id;
       QueueEvents.AEmit (VString (to_string kind +:+ ":" +:+ j))
                         (Some payload) id]) /\
   ((forall j, payload !! "jobId" = Some (VString j) -> j = "") ->
      QueueEvents.dispatch args id =
      [QueueEvents.AEmit kind (Some payload) id])).
Proof.
  intros Hdec kind payload.
  destruct (decode_jobId fields args Hdec) as [_ Hplain].
  assert (Hjob : payload !! "jobId" = args !! "jobId").
  { unfold payload. now rewrite lookup_delete_ne. }
  unfold QueueEvents.dispatch. fold kind. fold payload.
  split.
  - intros ->. reflexivity.
  - intros Hkind.
    assert (Hne : QueueEvents.strict_eq kind "drained" = false).
    { destruct kind as [|s|j]; simpl; try reflexivity.
      destruct (String.eqb_spec s "drained") as [->|]; [|reflexivity].
      now contradiction Hkind. }
    rewrite Hne. unfold obj_get. split.
    + intros j Hj Hnonempty. rewrite Hj. simpl.
      destruct (String.eqb_spec j "") as [->|]; [contradiction|reflexivity].
    + intros Hnone.
      destruct (payload !! "jobId") as [[|j|j]|] eqn:Hj; simpl;
        try reflexivity.
      * rewrite (Hnone j eq_refl). reflexivity.
      * exfalso. apply (Hplain j). now rewrite <- Hjob.
Qed.

(** C7: for a record [(id, fields)] that decodes to [args], with kind
    [args.event] and payload the remaining properties, let [emitted] be:
    for a kind equal to the string "drained", the single emission of the
    id without payload; for any other kind, the emission of
    [(payload, id)] under the bare kind, followed by the emission of the
    same [(payload, id)] under "kind:jobId" exactly when the payload has a
    non-empty [jobId], and by nothing otherwise.  Then the loop of
    [consumeEvents] over the records of a reply, at this record, sets the
    cursor to [id], emits [emitted] and goes on with the records that
    follow; this is what every run of [consumeEvents] does for a record it
    processes ([actions_of]); and a call of [consumeEvents] whose read
    answers with this record emits [emitted] and is left waiting in its
    next read. *)
Theorem dispatch_by_kind `{RT : JsRuntime} (opts : QueueEvents.Options)
    (key : string) (id : StreamId) (fields : list string) (args : obj)
    (rest : list Entry) (st : QueueEvents.State) :
  QueueEvents.decode (array2obj fields) = inr args ->
  let kind := obj_get args "event" in
  let payload : obj := delete "event" args in
  exists emitted : list QueueEvents.Action,
    (kind = VString "drained" ->
     emitted = [QueueEvents.AEmit kind None id]) /\
    (kind <> VString "drained" ->
     (forall j, payload !! "jobId" = Some (VString j) -> j <> "" ->
        emitted =
        [QueueEvents.AEmit kind (Some payload) id;
         QueueEvents.AEmit (VString (to_string kind +:+ ":" +:+ j))
                           (Some payload) id]) /\
     ((forall j, payload !! "jobId" = Some (VString j) -> j = "") ->
        emitted = [QueueEvents.AEmit kind (Some payload) id])) /\
    QueueEvents.handle_events ((id, fields) :: rest) st =
      QueueEvents.handle_events rest
        (QueueEvents.mkState
           (QueueEvents.running st) (QueueEvents.closing st)
           (QueueEvents.stream st) (QueueEvents.At id)
           (QueueEvents.trace st ++ QueueEvents.ASetId id :: emitted)) /\
    QueueEvents.actions_of (id, fields) = QueueEvents.ASetId id :: emitted /\
    forall before,
      QueueEvents.closing st = false ->
      QueueEvents.lastEventId opts = None ->
      QueueEvents.consumeEvents opts key [(before, [(id, fields)])] st =
      (QueueEvents.Suspended,
       QueueEvents.mkState
         (QueueEvents.running st) false
         (QueueEvents.stream st ++ before ++ [(id, fields)])
         (QueueEvents.At id)
         (QueueEvents.trace st ++
          QueueEvents.ARead QueueEvents.Dollar
            (Some [(key, [(id, fields)])]) ::
          QueueEvents.ASetId id :: emitted)).
Proof.
  intros Hdec kind payload.
  exists (QueueEvents.dispatch args id).
  destruct (dispatch_cases id fields args Hdec) as [Hdrained Hother].
  split; [exact Hdrained|]. split; [exact Hother|]. split; [|split].
  - cbn [QueueEvents.handle_events]. rewrite Hdec.
    unfold QueueEvents.log, QueueEvents.set_cursor. simpl.
    now rewrite <- app_assoc.
  - unfold QueueEvents.actions_of. simpl. now rewrite Hdec.
  - intros before Hclosing Hlast.
    unfold QueueEvents.consumeEvents. rewrite Hlast.
    cbn [QueueEvents.consumeEvents_loop].
    unfold QueueEvents.set_cursor at 1. cbn [QueueEvents.closing].
    rewrite Hclosing.
    cbn [QueueEvents.cursor QueueEvents.set_cursor QueueEvents.xread].
    cbn [QueueEvents.handle_events]. rewrite Hdec.
    unfold QueueEvents.log, QueueEvents.set_cursor, QueueEvents.arrive.
    simpl. rewrite Hclosing. now rewrite <- !app_assoc.
Qed.

(** ** The order of ids and sorted streams *)

Lemma id_lt_irrefl (a : StreamId) : ~ id_lt a a.
Proof. unfold id_lt. lia. Qed.

Lemma id_lt_trans (a b c : StreamId) : id_lt a b -> id_lt b c -> id_lt a c.
Proof. unfold id_lt. lia. Qed.

Lemma filter_none {A} (P : A -> Prop) `{forall x, Decision (P x)}
    (l : list A) :
  Forall (fun x => ~ P x) l -> filter P l = [].
Proof.
  induction 1 as [|x l Hx Hl IH]; [reflexivity|].
  now rewrite filter_cons_False.
Qed.

Lemma filter_all {A} (P : A -> Prop) `{forall x, Decision (P x)}
    (l : list A) :
  Forall P l -> filter P l = l.
Proof.
  induction 1 as [|x l Hx Hl IH]; [reflexivity|].
  rewrite filter_cons_True by assumption. now f_equal.
Qed.

Lemma filter_agree {A} (P Q : A -> Prop) `{forall x, Decision (P x)}
    `{forall x, Decision (Q x)} (l : list A) :
  Forall (fun x => P x /\ Q x) l -> filter P l = filter Q l.
Proof.
  induction 1 as [|x l [HP HQ] Hl IH]; [reflexivity|].
  rewrite !filter_cons_True by assumption. now f_equal.
Qed.

Lemma StronglySorted_filter {A} (R : relation A) (P : A -> Prop)
    `{forall x, Decision (P x)} (l : list A) :
  StronglySorted R l -> StronglySorted R (filter P l).
Proof.
  induction 1 as [|x l Hl IH Hx]; [constructor|].
  rewrite filter_cons. destruct (decide (P x)); [|exact IH].
  constructor; [exact IH|].
  apply Forall_forall. intros y Hy. apply list_elem_of_filter in Hy as [_ Hy].
  rewrite Forall_forall in Hx. now apply Hx.
Qed.

Section SortedStream.
Import QueueEvents.

Lemma after_app c l1 l2 : after c (l1 ++ l2) = after c l1 ++ after c l2.
Proof. apply filter_app. Qed.

(** Once the records after [c] of a sorted stream [A] were read up to
    the last one [x], nothing of [A] is after [x], and what is appended
    later is after [x] just when it is after [c]. *)
Lemma after_last c x (A rest : list Entry) :
  StronglySorted entry_lt (A ++ rest) ->
  last (after c A) = Some x ->
  after (fst x) A = [] /\ after (fst x) rest = after c rest.
Proof.
  intros Hsorted Hlast.
  assert (Hx : x ∈ after c A) by now apply last_Some_elem_of.
  apply list_elem_of_filter in Hx as [Hcx HxA].
  split.
  - apply filter_none, Forall_forall. intros a Ha Hxa.
    assert (Hin : a ∈ after c A).
    { apply list_elem_of_filter. split; [|exact Ha].
      eapply id_lt_trans; eassumption. }
    apply last_Some in Hlast as [l' Hl']. rewrite Hl' in Hin.
    assert (Hs : StronglySorted entry_lt (l' ++ [x])).
    { rewrite <- Hl'. apply StronglySorted_filter.
      eapply StronglySorted_app_1_l, Hsorted. }
    apply elem_of_app in Hin as [Hin|Hin].
    + apply (id_lt_irrefl (fst x)). eapply id_lt_trans; [exact Hxa|].
      eapply (StronglySorted_app_1_elem_of _ _ _ a x Hs); [exact Hin|].
      now apply list_elem_of_singleton.
    + apply list_elem_of_singleton in Hin as ->.
      now apply (id_lt_irrefl (fst x)).
  - apply filter_agree, Forall_forall. intros b Hb.
    assert (Hxb : id_lt (fst x) (fst b)).
    { eapply (StronglySorted_app_1_elem_of _ _ _ x b Hsorted); assumption. }
    split; [exact Hxb|]. eapply id_lt_trans; eassumption.
Qed.

(** The same once a sorted stream [A] was read up to its last record. *)
Lemma after_last_all x (A rest : list Entry) :
  StronglySorted entry_lt (A ++ rest) ->
  last A = Some x ->
  after (fst x) A = [] /\ after (fst x) rest = rest.
Proof.
  intros Hsorted Hlast.
  assert (HxA : x ∈ A) by now apply last_Some_elem_of.
  split.
  - apply filter_none, Forall_forall. intros a Ha Hxa.
    apply last_Some in Hlast as [l' ->].
    apply StronglySorted_app_1_l in Hsorted.
    apply elem_of_app in Ha as [Ha|Ha].
    + apply (id_lt_irrefl (fst x)). eapply id_lt_trans; [exact Hxa|].
      eapply (StronglySorted_app_1_elem_of _ _ _ a x Hsorted); [exact Ha|].
      now apply list_elem_of_singleton.
    + apply list_elem_of_singleton in Ha as ->.
      now apply (id_lt_irrefl (fst x)).
  - apply filter_all, Forall_forall. intros b Hb.
    eapply (StronglySorted_app_1_elem_of _ _ _ x b Hsorted); assumption.
Qed.

End SortedStream.

(** ** The listener's loop *)

Section ListenerFacts.
Import QueueEvents.
Context `{RT : JsRuntime}.
Variable opts : Options.
Variable key : string.

Lemma handle_events_spec (es : list Entry) (st : State) :
  exists processed,
    processed `prefix_of` es /\
    trace (snd (handle_events es st)) =
      trace st ++ flat_map actions_of processed /\
    stream (snd (handle_events es st)) = stream st /\
    closing (snd (handle_events es st)) = closing st /\
    cursor (snd (handle_events es st)) =
      from_option (fun e => At (fst e)) (cursor st) (last processed) /\
    match fst (handle_events es st) with
    | Returned => processed = es
    | Suspended => False
    | Failed _ => True
    end.
Proof.
  revert st. induction es as [|[eid fields] es IH]; intros st; simpl.
  - exists []. rewrite app_nil_r. repeat split. apply prefix_nil.
  - destruct (decode (array2obj fields)) as [err|args] eqn:Hdec; simpl.
    + exists [(eid, fields)]. simpl. unfold actions_of. simpl.
      rewrite Hdec. repeat split.
      apply prefix_cons, prefix_nil.
    + destruct (IH (log (dispatch args eid)
                      (log [ASetId eid] (set_cursor (At eid) st))))
        as (processed & Hpre & Htr & Hstream & Hclosing & Hcur & Hres).
      exists ((eid, fields) :: processed). split; [now apply prefix_cons|].
      split.
      { rewrite Htr. simpl. unfold actions_of at 2. simpl. rewrite Hdec.
        rewrite <- !app_assoc. reflexivity. }
      split; [exact Hstream|]. split; [exact Hclosing|].
      split.
      { rewrite Hcur. simpl. rewrite last_cons.
        now destruct (last processed). }
      destruct (fst (handle_events es _)); [now subst|exact Hres|exact I].
Qed.

Lemma writes_actions_of (processed : list Entry) :
  writes (flat_map actions_of processed) = flat_map actions_of processed.
Proof.
  induction processed as [|e l IH]; [reflexivity|]. simpl.
  unfold writes in *. rewrite omap_app, IH. f_equal.
  unfold actions_of, dispatch.
  destruct (decode _); [reflexivity|]. simpl.
  destruct (strict_eq _ _); [reflexivity|]. simpl.
  now destruct (truthy _).
Qed.

Lemma ids_set_actions_of (processed : list Entry) :
  ids_set (flat_map actions_of processed) = map fst processed.
Proof.
  induction processed as [|e l IH]; [reflexivity|]. simpl.
  unfold ids_set in *. rewrite omap_app, IH.
  unfold actions_of, dispatch.
  destruct (decode _); [reflexivity|]. simpl.
  destruct (strict_eq _ _); [reflexivity|]. simpl.
  now destruct (truthy _).
Qed.

Lemma loop_spec (sched : list Arrival) :
  forall (st : State) (c : StreamId),
    cursor st = At c ->
    StronglySorted entry_lt (stream st ++ appended sched) ->
    exists delta processed,
      trace (snd (consumeEvents_loop key sched st)) = trace st ++ delta /\
      processed `prefix_of` after c (stream st ++ appended sched) /\
      writes delta = flat_map actions_of processed /\
      cursor (snd (consumeEvents_loop key sched st)) =
        cursor_after (At c) processed /\
      (fst (consumeEvents_loop key sched st) = Suspended ->
       sched <> [] \/ after c (stream st) = [] ->
       processed = after c (stream st ++ appended sched)).
Proof.
  induction sched as [|[before during] sched IH]; intros st c Hc Hsorted.
  - exists [], []. simpl. rewrite !app_nil_r. repeat split.
    + apply prefix_nil.
    + exact Hc.
    + intros _ [Hne|Hnone]; [now contradiction Hne|now rewrite Hnone].
  - simpl. destruct (closing st) eqn:Hclosing.
    { exists [], []. simpl. rewrite app_nil_r. repeat split.
      - apply prefix_nil.
      - exact Hc.
      - discriminate. }
    simpl in Hsorted. rewrite app_assoc in Hsorted.
    rewrite app_assoc. rewrite Hc. unfold xread.
    change (filter (fun e : Entry => id_lt c (fst e))
                   (stream st ++ before ++ during))
      with (after c (stream st ++ before ++ during)).
    set (arrived := before ++ during) in *.
    set (A := stream st ++ arrived) in *.
    rewrite after_app.
    destruct (after c A) as [|e es] eqn:Hes.
    + set (st1 := log [ARead (At c) None] (arrive arrived st)).
      destruct (IH st1 c Hc Hsorted)
        as (delta & processed & Htr & Hpre & Hw & Hcur & Hall).
      change (stream st1) with A in Hpre, Hall.
      rewrite after_app, Hes in Hpre, Hall.
      exists (ARead (At c) None :: delta), processed.
      split; [rewrite Htr; simpl; now rewrite <- app_assoc|].
      split; [exact Hpre|]. split; [exact Hw|]. split; [exact Hcur|].
      intros Hsusp _. apply Hall; [exact Hsusp|now right].
    + set (st1 := log [ARead (At c) (Some [(key, e :: es)])]
                      (arrive arrived st)).
      destruct (handle_events_spec (e :: es) st1)
        as (done & Hdone & Htr1 & Hstream1 & Hclosing1 & Hcur1 & Hres1).
      destruct (handle_events (e :: es) st1) as [r st2] eqn:Hh.
      simpl in Htr1, Hstream1, Hclosing1, Hcur1, Hres1.
      destruct r as [| |err]; [|contradiction|].
      * subst done.
        destruct (last (e :: es)) as [x|] eqn:Hlast;
          [|now apply last_None in Hlast].
        simpl in Hcur1.
        assert (Hlast' : last (after c A) = Some x) by now rewrite Hes.
        destruct (after_last c x A (appended sched) Hsorted Hlast')
          as [Hnone Hrest].
        assert (HA : stream st2 = A) by now rewrite Hstream1.
        destruct (IH st2 (fst x) Hcur1) as
          (delta & processed & Htr & Hpre & Hw & Hcur & Hall);
          [now rewrite HA|].
        rewrite HA, after_app, Hnone, Hrest in Hpre, Hall.
        simpl in Hpre, Hall.
        exists (ARead (At c) (Some [(key, e :: es)]) ::
                flat_map actions_of (e :: es) ++ delta),
               ((e :: es) ++ processed).
        split.
        { rewrite Htr, Htr1. simpl. rewrite <- !app_assoc. reflexivity. }
        split; [now apply prefix_app|].
        split.
        { change (writes (?a :: ?l)) with (writes l). unfold writes in *.
          rewrite omap_app, Hw, flat_map_app. f_equal.
          apply writes_actions_of. }
        split.
        { rewrite Hcur. unfold cursor_after. rewrite last_app.
          destruct (last processed); [reflexivity|]. now rewrite Hlast. }
        intros Hsusp _. f_equal. apply Hall; [exact Hsusp|now right].
      * exists (ARead (At c) (Some [(key, e :: es)]) ::
                flat_map actions_of done), done.
        simpl.
        split; [rewrite Htr1; simpl; now rewrite <- app_assoc|].
        split; [exact (prefix_app_r done (e :: es) _ Hdone)|].
        split.
        { change (writes (?a :: ?l)) with (writes l).
          apply writes_actions_of. }
        split; [|discriminate].
        rewrite Hcur1, Hc. unfold cursor_after.
        now destruct (last done).
Qed.

Lemma from_now_sorted (sched : list Arrival) :
  forall log : list Entry,
    StronglySorted entry_lt (log ++ appended sched) ->
    StronglySorted entry_lt (from_now sched).
Proof.
  induction sched as [|[before during] sched IH]; intros log Hsorted.
  - constructor.
  - simpl in *. destruct during as [|e es].
    + apply (IH (log ++ before ++ [])). now rewrite <- !app_assoc in *.
    + rewrite !app_assoc in Hsorted. rewrite <- app_assoc in Hsorted.
      now apply StronglySorted_app_1_r in Hsorted.
Qed.

Lemma loop_spec_dollar (sched : list Arrival) :
  forall st : State,
    cursor st = Dollar ->
    StronglySorted entry_lt (stream st ++ appended sched) ->
    exists delta processed,
      trace (snd (consumeEvents_loop key sched st)) = trace st ++ delta /\
      processed `prefix_of` from_now sched /\
      writes delta = flat_map actions_of processed /\
      cursor (snd (consumeEvents_loop key sched st)) =
        cursor_after Dollar processed /\
      (fst (consumeEvents_loop key sched st) = Suspended ->
       processed = from_now sched).
Proof.
  induction sched as [|[before during] sched IH]; intros st Hc Hsorted.
  - exists [], []. simpl. rewrite !app_nil_r. repeat split.
    + apply prefix_nil.
    + exact Hc.
  - simpl. destruct (closing st) eqn:Hclosing.
    { exists [], []. simpl. rewrite app_nil_r. repeat split.
      - apply prefix_nil.
      - exact Hc.
      - discriminate. }
    simpl in Hsorted. rewrite app_assoc in Hsorted.
    rewrite Hc. unfold xread.
    destruct during as [|e es].
    + set (st1 := log [ARead Dollar None] (arrive (before ++ []) st)).
      destruct (IH st1 Hc Hsorted)
        as (delta & processed & Htr & Hpre & Hw & Hcur & Hall).
      exists (ARead Dollar None :: delta), processed.
      split; [rewrite Htr; simpl; now rewrite <- app_assoc|].
      split; [exact Hpre|]. split; [exact Hw|]. split; [exact Hcur|].
      exact Hall.
    + set (A := stream st ++ before ++ e :: es) in *.
      set (st1 := log [ARead Dollar (Some [(key, e :: es)])]
                      (arrive (before ++ e :: es) st)).
      destruct (handle_events_spec (e :: es) st1)
        as (done & Hdone & Htr1 & Hstream1 & Hclosing1 & Hcur1 & Hres1).
      destruct (handle_events (e :: es) st1) as [r st2] eqn:Hh.
      simpl in Htr1, Hstream1, Hclosing1, Hcur1, Hres1.
      destruct r as [| |err]; [|contradiction|].
      * subst done.
        destruct (last (e :: es)) as [x|] eqn:Hlast;
          [|now apply last_None in Hlast].
        simpl in Hcur1.
        assert (Hlast' : last A = Some x).
        { unfold A. rewrite !last_app. now rewrite Hlast. }
        destruct (after_last_all x A (appended sched) Hsorted Hlast')
          as [Hnone Hrest].
        assert (HA : stream st2 = A) by now rewrite Hstream1.
        destruct (loop_spec sched st2 (fst x) Hcur1) as
          (delta & processed & Htr & Hpre & Hw & Hcur & Hall);
          [now rewrite HA|].
        rewrite HA, after_app, Hnone, Hrest in Hpre, Hall.
        simpl in Hpre, Hall.
        exists (ARead Dollar (Some [(key, e :: es)]) ::
                flat_map actions_of (e :: es) ++ delta),
               ((e :: es) ++ processed).
        split.
        { rewrite Htr, Htr1. simpl. rewrite <- !app_assoc. reflexivity. }
        split; [now apply prefix_app|].
        split.
        { change (writes (?a :: ?l)) with (writes l). unfold writes in *.
          rewrite omap_app, Hw, flat_map_app. f_equal.
          apply writes_actions_of. }
        split.
        { rewrite Hcur. unfold cursor_after. rewrite last_app.
          destruct (last processed); [reflexivity|]. now rewrite Hlast. }
        intros Hsusp. f_equal. apply Hall; [exact Hsusp|now right].
      * exists (ARead Dollar (Some [(key, e :: es)]) ::
                flat_map actions_of done), done.
        simpl.
        split; [rewrite Htr1; simpl; now rewrite <- app_assoc|].
        split; [exact (prefix_app_r done (e :: es) _ Hdone)|].
        split.
        { change (writes (?a :: ?l)) with (writes l).
          apply writes_actions_of. }
        split; [|discriminate].
        rewrite Hcur1, Hc. unfold cursor_after.
        now destruct (last done).
Qed.

End ListenerFacts.

Lemma ids_set_writes `{RT : JsRuntime} (l : list QueueEvents.Action) :
  QueueEvents.ids_set (QueueEvents.writes l) = QueueEvents.ids_set l.
Proof.
  induction l as [|a l IH]; [reflexivity|].
  destruct a; simpl; unfold QueueEvents.ids_set, QueueEvents.writes in *;
    simpl; now rewrite ?IH.
Qed.

(** C6, for one call of [consumeEvents] (one run of the loop): on a
    stream whose ids increase (now and as records are appended), the
    listener processes a sequence of records that is an initial part,
    without a gap, of the records it is to process: the records of the
    stream after [X] when started with [lastEventId = X] (when started
    from ['$'], the records that arrive from its first answered read on);
    it is all of them when the loop is left waiting in its read.  For each
    of these records in turn the cursor is set to the record's id and then
    the record's emissions follow, so that the values taken by the cursor
    are strictly increasing, and all after [X]; the cursor ends at the
    last record processed. *)
Theorem cursor_only_advances `{RT : JsRuntime}
    (opts : QueueEvents.Options) (key : string)
    (sched : list QueueEvents.Arrival) (st : QueueEvents.State) :
  StronglySorted QueueEvents.entry_lt
    (QueueEvents.stream st ++ QueueEvents.appended sched) ->
  let result := QueueEvents.consumeEvents opts key sched st in
  let todo := QueueEvents.expected opts (QueueEvents.stream st) sched in
  exists delta processed,
    QueueEvents.trace (snd result) = QueueEvents.trace st ++ delta /\
    processed `prefix_of` todo /\
    QueueEvents.writes delta = flat_map QueueEvents.actions_of processed /\
    QueueEvents.ids_set delta = map fst processed /\
    StronglySorted id_lt (QueueEvents.ids_set delta) /\
    (forall X, QueueEvents.lastEventId opts = Some X ->
               Forall (id_lt X) (QueueEvents.ids_set delta)) /\
    QueueEvents.cursor (snd result) =
      QueueEvents.cursor_after (QueueEvents.start_cursor opts) processed /\
    (fst result = QueueEvents.Suspended -> sched <> [] -> processed = todo).
Proof.
  intros Hsorted result todo.
  assert (Hspec : exists delta processed,
    QueueEvents.trace (snd result) = QueueEvents.trace st ++ delta /\
    processed `prefix_of` todo /\
    QueueEvents.writes delta = flat_map QueueEvents.actions_of processed /\
    QueueEvents.cursor (snd result) =
      QueueEvents.cursor_after (QueueEvents.start_cursor opts) processed /\
    (fst result = QueueEvents.Suspended -> sched <> [] -> processed = todo) /\
    StronglySorted QueueEvents.entry_lt todo).
  { unfold result, todo, QueueEvents.consumeEvents, QueueEvents.expected,
      QueueEvents.start_cursor.
    destruct (QueueEvents.lastEventId opts) as [X|].
    - destruct (loop_spec key sched
                  (QueueEvents.set_cursor (QueueEvents.At X) st) X eq_refl
                  Hsorted)
        as (delta & processed & Htr & Hpre & Hw & Hcur & Hall).
      exists delta, processed. repeat split; try assumption.
      + intros Hsusp Hne. apply Hall; [exact Hsusp|now left].
      + now apply StronglySorted_filter.
    - destruct (loop_spec_dollar key sched
                  (QueueEvents.set_cursor QueueEvents.Dollar st) eq_refl
                  Hsorted)
        as (delta & processed & Htr & Hpre & Hw & Hcur & Hall).
      exists delta, processed. repeat split; try assumption.
      + intros Hsusp _. now apply Hall.
      + eapply from_now_sorted, Hsorted. }
  destruct Hspec as (delta & processed & Htr & Hpre & Hw & Hcur & Hall & Ht).
  assert (Hids : QueueEvents.ids_set delta = map fst processed).
  { now rewrite <- ids_set_writes, Hw, ids_set_actions_of. }
  assert (Hs : StronglySorted QueueEvents.entry_lt processed).
  { destruct Hpre as [k Hk]. rewrite Hk in Ht.
    now apply StronglySorted_app_1_l in Ht. }
  exists delta, processed.
  split; [exact Htr|]. split; [exact Hpre|]. split; [exact Hw|].
  split; [exact Hids|]. rewrite Hids.
  split; [|split; [|split; [exact Hcur|exact Hall]]].
  - apply (StronglySorted_fmap fst QueueEvents.entry_lt id_lt); [|exact Hs].
    now intros a b.
  - intros X HX. apply Forall_forall. intros i Hi.
    apply list_elem_of_fmap in Hi as (e & -> & He).
    destruct Hpre as [k Hk].
    assert (Hin : e ∈ todo).
    { rewrite Hk. apply elem_of_app. now left. }
    unfold todo, QueueEvents.expected in Hin. rewrite HX in Hin.
    now apply list_elem_of_filter in Hin as [Hlt _].
Qed.

(** ** Witnesses *)

Lemma run_while_running_fails_witness :
  QueueEvents.running Sample.busy = true /\
  QueueEvents.run (Sample.listener_options None) "events" (fun _ => false)
    None [([], [Sample.drained 9])] Sample.busy =
  (QueueEvents.Failed (Js.Error "Queue Events is already running."),
   Sample.busy).
Proof.
  split; [reflexivity|].
  apply run_while_running_fails. reflexivity.
Defined.

Lemma dispatch_by_kind_witness :
  QueueEvents.decode (array2obj (snd (Sample.completed 7 "b" "42"))) =
    inr (<["returnvalue" := VJson 42]>
           (array2obj (snd (Sample.completed 7 "b" "42")))) /\
  QueueEvents.consumeEvents (Sample.listener_options None) "events"
    [([], [Sample.completed 7 "b" "42"])] Sample.busy =
  (QueueEvents.Suspended,
   QueueEvents.mkState true false
     [Sample.completed 3 "a" "1"; Sample.completed 7 "b" "42"]
     (QueueEvents.At (mkId 7 0))
     [QueueEvents.ARead QueueEvents.Dollar
        (Some [("events", [Sample.completed 7 "b" "42"])]);
      QueueEvents.ASetId (mkId 7 0);
      QueueEvents.AEmit (VString "completed")
        (Some (<["returnvalue" := VJson 42]> {["jobId" := VString "b"]}))
        (mkId 7 0);
      QueueEvents.AEmit (VString "completed:b")
        (Some (<["returnvalue" := VJson 42]> {["jobId" := VString "b"]}))
        (mkId 7 0)]).
Proof.
  assert (H : QueueEvents.decode
                (array2obj (snd (Sample.completed 7 "b" "42"))) =
              inr (<["returnvalue" := VJson 42]>
                     (array2obj (snd (Sample.completed 7 "b" "42")))))
    by reflexivity.
  split; [exact H|].
  destruct (dispatch_by_kind (Sample.listener_options None) "events"
              (mkId 7 0) _ _ [] Sample.busy H)
    as (emitted & _ & Hother & _ & _ & Hrun).
  destruct Hother as [Hjob _]; [discriminate|].
  etransitivity; [exact (Hrun [] eq_refl eq_refl)|].
  rewrite (Hjob "b"); [|vm_compute; reflexivity|discriminate].
  vm_compute. reflexivity.
Defined.

Lemma parse_error_skips_rest_witness :
  Forall (fun e => is_Some (JSON_parse (payload_text e)))
         [Sample.record 1 "1"] /\
  JSON_parse (payload_text (Sample.record 2 "oops")) = None /\
  trace (consume_iteration (Sample.options None) Sample.cb_ok
           (Sample.at_time 10) (Sample.start Sample.with_bad_record)) =
  [ARead Pending (Some [("jobs", [])]);
   ARead New (Some [("jobs", [Sample.record 1 "1"; Sample.record 2 "oops";
                              Sample.record 3 "3"])]);
   ACallback (mkId 1 0) 1 None;
   AAck (mkId 1 0);
   AError (Js.SyntaxError "oops")].
Proof.
  assert (H1 : Forall (fun e => is_Some (JSON_parse (payload_text e)))
                      [Sample.record 1 "1"]).
  { repeat constructor. exists 1. reflexivity. }
  assert (H2 : JSON_parse (payload_text (Sample.record 2 "oops")) = None)
    by reflexivity.
  split; [exact H1|]. split; [exact H2|].
  set (w0 := Sample.start Sample.with_bad_record).
  set (wa := snd (client_xreadgroup (Sample.options None) Pending w0)).
  set (w := snd (client_xreadgroup (Sample.options None) New
                   (snd (trimStream (Sample.options None)
                                    (Sample.at_time 10) wa)))).
  destruct (parse_error_skips_rest (Sample.options None) Sample.cb_ok
              (Sample.at_time 10) "jobs" [Sample.record 1 "1"]
              [Sample.record 3 "3"] (Sample.record 2 "oops") [] w H1 H2)
    as (w1 & Hok & _ & Hloop).
  destruct (Hloop w0 wa (Some [("jobs", [])]) eq_refl eq_refl eq_refl)
    as [Hit _].
  rewrite Hit. vm_compute in Hok. injection Hok as <-. reflexivity.
Defined.

Lemma cursor_only_advances_witness :
  StronglySorted QueueEvents.entry_lt
    (QueueEvents.stream Sample.idle ++
     QueueEvents.appended [([], [Sample.completed 9 "c" "5"])]) /\
  StronglySorted id_lt
    (QueueEvents.ids_set
       (QueueEvents.trace
          (snd (QueueEvents.consumeEvents
                  (Sample.listener_options (Some (mkId 3 0))) "events"
                  [([], [Sample.completed 9 "c" "5"])] Sample.idle)))).
Proof.
  assert (H : StronglySorted QueueEvents.entry_lt
                (QueueEvents.stream Sample.idle ++
                 QueueEvents.appended [([], [Sample.completed 9 "c" "5"])])).
  { repeat constructor; unfold QueueEvents.entry_lt, id_lt; simpl; lia. }
  split; [exact H|].
  destruct (cursor_only_advances (Sample.listener_options (Some (mkId 3 0)))
              "events" [([], [Sample.completed 9 "c" "5"])] Sample.idle H)
    as (delta & processed & Htr & _ & _ & _ & Hs & _).
  rewrite Htr. exact Hs.
Defined.

(** ** The rate limit and the cutoff of [trimStream] *)

Section Trim.
Context `{RT : JsRuntime} {C : Type}.
Variable consumerOpts : ConsumerOptions.
Variable clock : nat -> Z.

(** A call earlier than [trim_interval] after the last trim does nothing
    but read the clock. *)
Lemma trimStream_rate_limited {S : Type} {client : RedisClient S}
    (w : World S C) :
  clock (ticks w) < lastTrim w + trim_interval consumerOpts ->
  trimStream consumerOpts clock w =
  (Ok tt, mkWorld (store w) (lastTrim w) (closing w)
                  (Datatypes.S (ticks w)) (cbst w) (trace w)).
Proof.
  intros Hearly. unfold trim_interval in Hearly.
  unfold trimStream, bind, get_lastTrim, date_now. simpl.
  destruct (Z.ltb_spec (clock (ticks w))
              (lastTrim w + Js.or_default (trimIntervalMs consumerOpts) 60000))
    as [_|Hge]; [reflexivity|lia].
Qed.

(** A call that trims records the time of the trim, so that the rate
    limit counts from it. *)
Lemma trimStream_records_time {S : Type} {client : RedisClient S}
    (w : World S C) :
  lastTrim w + trim_interval consumerOpts <= clock (ticks w) ->
  lastTrim (snd (trimStream consumerOpts clock w)) =
  clock (Datatypes.S (ticks w)).
Proof.
  intros Hlate. unfold trim_interval in Hlate.
  unfold trimStream, bind, get_lastTrim, date_now,
    set_lastTrim, client_xrange, client_xtrim, ret. simpl.
  destruct (Z.ltb_spec (clock (ticks w))
              (lastTrim w + Js.or_default (trimIntervalMs consumerOpts) 60000))
    as [Hlt|_]; [lia|]. simpl.
  destruct (xrange_first _) as [|[oid ofs] old]; [reflexivity|].
  destruct (Z.ltb (ms oid) _); reflexivity.
Qed.

(** On the stream store a record that a call deletes is older than the
    cutoff the code computed. *)
Lemma trimStream_deletes_older (w : World Stream C) (e : Entry) :
  In e (entries (store w)) ->
  ~ In e (entries (store (snd (trimStream consumerOpts clock w)))) ->
  ms (fst e) < cutoff consumerOpts (clock (Datatypes.S (Datatypes.S (ticks w)))).
Proof.
  intros Hin Hgone. unfold trimStream, bind, get_lastTrim, date_now,
    set_lastTrim, client_xrange, client_xtrim, ret in Hgone.
  simpl in Hgone.
  destruct (Z.ltb _ _); [contradiction|]. simpl in Hgone.
  destruct (stream_first _) as [|[oid ofs] old]; [contradiction|].
  fold (cutoff consumerOpts (clock (Datatypes.S (Datatypes.S (ticks w)))))
    in Hgone.
  destruct (Z.ltb _ _); [|contradiction]. simpl in Hgone.
  destruct (decide (ms (fst e) <
                    cutoff consumerOpts
                      (clock (Datatypes.S (Datatypes.S (ticks w))))))
    as [Hlt|Hge]; [exact Hlt|].
  exfalso. apply Hgone. apply list_elem_of_In, list_elem_of_filter.
  split; [|now apply list_elem_of_In].
  unfold id_lt. simpl. lia.
Qed.

End Trim.

(** ** Where the consumer departs from its description *)

(** A reply with a single stream result never passes the guard of the
    pending phase, whatever records it holds. *)
Lemma pending_guard_single (r : XReadGroupResult) :
  pending_guard (Some [r]) = false.
Proof. reflexivity. Qed.


(** C1, on the code: with record 1000 pending and record 2000 new, an
    iteration reads the pending record, does not handle it, reads the new
    record and processes it; the pending record is still pending. *)
Theorem new_record_processed_before_pending :
  let w' := consume_iteration (Sample.options (Some 100000)) Sample.cb_ok
              (Sample.at_time 5000) (Sample.start Sample.backlog) in
  trace w' =
    [ARead Pending (Some [("jobs", [Sample.record 1000 "1"])]);
     ARead New (Some [("jobs", [Sample.record 2000 "2"])]);
     ACallback (mkId 2000 0) 2 None;
     AAck (mkId 2000 0)] /\
  pel (store w') = [Sample.record 1000 "1"].
Proof. vm_compute. split; reflexivity. Qed.

(** C3, on the code: a pending record of age 4000 under a retention of 100
    is neither acknowledged nor passed to the callback by an iteration on
    the stream store, and stays pending; and when a pending reply does
    pass the guard, a stale record that shares the batch with a fresh one
    is acknowledged and then passed to the callback all the same. *)
Theorem stale_pending_record_mishandled :
  (let w' := consume_iteration (Sample.options (Some 100)) Sample.cb_ok
               (Sample.at_time 5000) (Sample.start Sample.one_pending) in
   stale (Sample.options (Some 100)) 5000 (mkId 1000 0) /\
   ack_count (mkId 1000 0) (trace w') = 0%nat /\
   pel (store w') = [Sample.record 1000 "1"]) /\
  (let w' := consume_iteration (Sample.options (Some 100)) Sample.cb_ok
               (Sample.at_time 5000)
               (Sample.start
                  (Sample.two_results
                     [Sample.record 1000 "1"; Sample.record 4990 "2"])) in
   callbacks (trace w') = [mkId 1000 0; mkId 4990 0]).
Proof.
  split.
  - split; [unfold stale, retention; simpl; lia|].
    vm_compute. split; reflexivity.
  - vm_compute. reflexivity.
Qed.

(** C5, on the code: with [maxRetentionMs] unset and the clock at
    100000000, the cutoff is 86400000 and not 100000000 - 86400000: the
    record created at 50000000, younger than 24 hours, is deleted. *)
Theorem trim_with_unset_retention :
  let w' := snd (trimStream (Sample.options None) (Sample.at_time 100000000)
                   (Sample.start Sample.early)) in
  entries Sample.early = [Sample.record 50000000 "1"] /\
  100000000 - 1000 * 60 * 60 * 24 <= ms (fst (Sample.record 50000000 "1")) /\
  cutoff (Sample.options None) 100000000 = 86400000 /\
  trace w' = [ATrim (mkId 86400000 0)] /\
  entries (store w') = [].
Proof. vm_compute. repeat split; try reflexivity. discriminate. Qed.



(** ** One acknowledgment per record *)





Section OncePerRecord.
Context `{RT : JsRuntime} {C : Type}.
Variable consumerOpts : ConsumerOptions.
Variable cb : Callback C.
Variable clock : nat -> Z.




End OncePerRecord.



(** ** The cursor across two runs *)

(** C6, as stated for an instance: the cursor is a variable of
    [consumeEvents] and is not kept on the instance.  When [run] has
    failed, here on a record whose return value is not JSON, a second
    [run] on the same instance reads from [lastEventId] again: the cursor
    goes back from 9 to 7 and the records 7 and 8 are emitted a second
    time. *)
Lemma second_run_restarts_from_lastEventId :
  let opts := Sample.listener_options (Some (mkId 3 0)) in
  let first :=
    QueueEvents.run opts "events" (fun _ => false) None
      [([], [Sample.completed 9 "c" "oops"])] Sample.idle in
  let second :=
    QueueEvents.run opts "events" (fun _ => false) None [([], [])]
      (snd first) in
  fst first = QueueEvents.Failed (Js.SyntaxError "oops") /\
  QueueEvents.running (snd first) = false /\
  QueueEvents.ids_set (QueueEvents.trace (snd second)) =
    [mkId 7 0; mkId 8 0; mkId 9 0; mkId 7 0; mkId 8 0; mkId 9 0] /\
  QueueEvents.ids_emitted (QueueEvents.trace (snd second)) =
    [mkId 7 0; mkId 7 0; mkId 8 0; mkId 7 0; mkId 7 0; mkId 8 0] /\
  ~ StronglySorted id_lt
      (QueueEvents.ids_set (QueueEvents.trace (snd second))).
Proof.
  intros opts first second.
  assert (Hids : QueueEvents.ids_set (QueueEvents.trace (snd second)) =
                 [mkId 7 0; mkId 8 0; mkId 9 0; mkId 7 0; mkId 8 0; mkId 9 0])
    by (vm_compute; reflexivity).
  split; [vm_compute; reflexivity|].
  split; [vm_compute; reflexivity|].
  split; [exact Hids|].
  split; [vm_compute; reflexivity|].
  rewrite Hids. intros Hsorted.
  apply StronglySorted_cons in Hsorted as [Hall _].
  rewrite !Forall_cons in Hall.
  destruct Hall as (_ & _ & Hlt & _).
  now apply id_lt_irrefl in Hlt.
Qed.

(** * Further properties of the consumer *)

(** ** The flattening of a record's fields *)

Lemma set_prop_other `{RT : JsRuntime} (k' k : string) (v : value)
    (acc : obj) :
  k' <> k -> set_prop k' v acc !! k = acc !! k.
Proof.
  intros Hne. unfold set_prop.
  destruct (String.eqb k' "__proto__"); [reflexivity|].
  now apply lookup_insert_ne.
Qed.

Lemma set_prop_same `{RT : JsRuntime} (k : string) (v : value) (acc : obj) :
  k <> "__proto__" -> set_prop k v acc !! k = Some v.
Proof.
  intros Hk. unfold set_prop.
  destruct (String.eqb_spec k "__proto__") as [->|_]; [contradiction|].
  apply lookup_insert_eq.
Qed.

Lemma fields_to_obj_flatten `{RT : JsRuntime} (kvs : list (string * string)) :
  forall acc : obj,
    fields_to_obj (flatten kvs) acc =
    foldl (fun m p => set_prop (fst p) (VString (snd p)) m) acc kvs.
Proof.
  induction kvs as [|[k v] kvs IH]; intros acc; [reflexivity|].
  simpl. apply IH.
Qed.

Lemma foldl_set_prop_absent `{RT : JsRuntime} (kvs : list (string * string))
    (k : string) :
  forall acc : obj,
    ~ In k (map fst kvs) ->
    foldl (fun m p => set_prop (fst p) (VString (snd p)) m) acc kvs !! k =
    acc !! k.
Proof.
  induction kvs as [|[k' v'] kvs IH]; intros acc Hk; [reflexivity|].
  simpl in *. rewrite IH by tauto.
  apply set_prop_other. intros ->. tauto.
Qed.

(** X1: in the object built from a field list of key/value pairs, a key
    other than ["__proto__"] is bound to the value of its last pair.  (An
    assignment to ["__proto__"] creates no property, see [set_prop].) *)
Theorem fields_last_pair_wins `{RT : JsRuntime}
    (pre post : list (string * string)) (k v : string) :
  k <> "__proto__" ->
  ~ In k (map fst post) ->
  fields_to_obj (flatten (pre ++ (k, v) :: post)) ∅ !! k = Some (VString v).
Proof.
  intros Hproto Hk. rewrite fields_to_obj_flatten, foldl_app. simpl.
  rewrite foldl_set_prop_absent by exact Hk.
  now apply set_prop_same.
Qed.

Lemma fields_last_pair_wins_witness :
  "data" <> "__proto__" /\
  ~ In "data" (map fst [("name", "n")]) /\
  fields_to_obj
    (flatten ([("data", "1")] ++ ("data", "2") :: [("name", "n")])) ∅
    !! "data" = Some (VString "2").
Proof.
  assert (Hp : "data" <> "__proto__") by discriminate.
  assert (H : ~ In "data" (map fst [("name", "n")])).
  { simpl. intros [H|[]]. discriminate. }
  split; [exact Hp|]. split; [exact H|].
  exact (fields_last_pair_wins (RT := Sample.numerals)
           [("data", "1")] [("name", "n")] "data" "2" Hp H).
Defined.

(** X2: a record whose field list has no 'data' key is not passed to the
    callback: 'data' reads as [undefined], [JSON.parse] is applied to the
    text "undefined", and when it rejects that text [processMessages]
    throws at this record, with nothing done for it or the records after
    it. *)
Theorem missing_data_throws `{RT : JsRuntime} {S : Type}
    {client : RedisClient S} {C : Type} (cb : Callback C)
    (name : string) (id : StreamId) (kvs : list (string * string))
    (post : list Entry) (rest : list XReadGroupResult) (w : World S C) :
  ~ In "data" (map fst kvs) ->
  JSON_parse "undefined" = None ->
  processMessages cb ((name, (id, flatten kvs) :: post) :: rest) w =
  (Throw (Js.SyntaxError "undefined"), w).
Proof.
  intros Hk Hparse.
  assert (Htext : payload_text (id, flatten kvs) = "undefined").
  { unfold payload_text, obj_get. simpl.
    rewrite fields_to_obj_flatten, foldl_set_prop_absent by exact Hk.
    now rewrite lookup_empty. }
  cbn [processMessages for_each]. unfold bind.
  rewrite processMessage_throws by now rewrite Htext.
  now rewrite Htext.
Qed.

Lemma missing_data_throws_witness :
  ~ In "data" (map fst [("name", "n")]) /\
  JSON_parse "undefined" = None /\
  processMessages Sample.cb_ok
    [("jobs", [(mkId 1 0, flatten [("name", "n")]); Sample.record 2 "2"])]
    (Sample.start Sample.one_pending) =
  (Throw (Js.SyntaxError "undefined"), Sample.start Sample.one_pending).
Proof.
  assert (H : ~ In "data" (map fst [("name", "n")])).
  { simpl. intros [H|[]]. discriminate. }
  split; [exact H|]. split; [reflexivity|].
  exact (missing_data_throws Sample.cb_ok "jobs" (mkId 1 0) [("name", "n")]
           [Sample.record 2 "2"] [] (Sample.start Sample.one_pending)
           H eq_refl).
Defined.

(** ** The processing of a batch *)

(** X3: for any batch, [processMessages] invokes the callback on an
    initial part of the batch, once per record and in order, and it
    acknowledges only records on which it invoked the callback, in that
    order. *)
Theorem processMessages_in_order `{RT : JsRuntime} {S : Type}
    {client : RedisClient S} {C : Type} (cb : Callback C)
    (name : string) (es : list Entry) (rest : list XReadGroupResult)
    (w : World S C) :
  exists delta,
    trace (snd (processMessages cb ((name, es) :: rest) w)) =
      trace w ++ delta /\
    callbacks delta `prefix_of` map fst es /\
    acks delta `sublist_of` callbacks delta.
Proof.
  cbn [processMessages]. revert w.
  induction es as [|e es IH]; intros w.
  - exists []. simpl. rewrite app_nil_r. split; [reflexivity|].
    split; [apply prefix_nil|constructor].
  - cbn [for_each]. unfold bind.
    destruct (JSON_parse (payload_text e)) as [j|] eqn:Hj.
    + destruct (processMessage_trace cb e w (ex_intro _ j Hj))
        as (d & r & w1 & Heq & Ht1).
      rewrite Heq. destruct (IH w1) as (delta & Ht & Hc & Ha).
      exists (ACallback (fst e) d r :: after_callback (fst e) r :: delta).
      split.
      { rewrite Ht, Ht1, <- app_assoc. now destruct r. }
      destruct r as [err|].
      * split; [exact (prefix_cons (fst e) _ _ Hc)|].
        apply sublist_cons. exact Ha.
      * split; [exact (prefix_cons (fst e) _ _ Hc)|].
        apply sublist_skip. exact Ha.
    + rewrite (processMessage_throws cb e w Hj).
      exists []. simpl. rewrite app_nil_r. split; [reflexivity|].
      split; [apply prefix_nil|constructor].
Qed.

(** ** What follows a callback, for any client *)

Lemma steps_after_callback `{RT : JsRuntime} (P : StreamId -> Prop)
    (l : list Action) :
  steps P l ->
  forall pre id d r post,
    l = pre ++ ACallback id d r :: post ->
    exists post', post = after_callback id r :: post'.
Proof.
  induction 1 as [|sel reply l Hl IH|i d0 l Hl IH|i d0 e l Hl IH
                  |i l Hi Hl IH|m l Hl IH|e l Hl IH];
    intros pre id d r post Heq.
  - now destruct pre.
  - destruct pre as [|a pre]; [discriminate|].
    injection Heq as _ Heq. eapply IH, Heq.
  - destruct pre as [|a [|b pre]].
    + injection Heq as <- <- <- <-. now exists l.
    + discriminate.
    + injection Heq as _ _ Heq. eapply IH, Heq.
  - destruct pre as [|a [|b pre]].
    + injection Heq as <- <- <- <-. now exists l.
    + discriminate.
    + injection Heq as _ _ Heq. eapply IH, Heq.
  - destruct pre as [|a pre]; [discriminate|].
    injection Heq as _ Heq. eapply IH, Heq.
  - destruct pre as [|a pre]; [discriminate|].
    injection Heq as _ Heq. eapply IH, Heq.
  - destruct pre as [|a pre]; [discriminate|].
    injection Heq as _ Heq. eapply IH, Heq.
Qed.

Lemma steps_before_ack `{RT : JsRuntime} (P : StreamId -> Prop)
    (l : list Action) :
  steps P l ->
  forall pre id post,
    l = pre ++ AAck id :: post ->
    (exists pre' d, pre = pre' ++ [ACallback id d None]) \/ P id.
Proof.
  induction 1 as [|sel reply l Hl IH|i d0 l Hl IH|i d0 e l Hl IH
                  |i l Hi Hl IH|m l Hl IH|e l Hl IH];
    intros pre id post Heq.
  - now destruct pre.
  - destruct pre as [|a pre]; [discriminate|]. injection Heq as <- Heq.
    destruct (IH _ _ _ Heq) as [(pre' & d & ->)|HP]; [left|now right].
    now exists (ARead sel reply :: pre'), d.
  - destruct pre as [|a [|b pre]].
    + discriminate.
    + injection Heq as <- <- _. left. now exists [], d0.
    + injection Heq as <- <- Heq.
      destruct (IH _ _ _ Heq) as [(pre' & d & ->)|HP]; [left|now right].
      now exists (ACallback i d0 None :: AAck i :: pre'), d.
  - destruct pre as [|a [|b pre]].
    + discriminate.
    + discriminate.
    + injection Heq as <- <- Heq.
      destruct (IH _ _ _ Heq) as [(pre' & d & ->)|HP]; [left|now right].
      now exists (ACallback i d0 (Some e) :: AError e :: pre'), d.
  - destruct pre as [|a pre].
    + injection Heq as <- _. now right.
    + injection Heq as <- Heq.
      destruct (IH _ _ _ Heq) as [(pre' & d & ->)|HP]; [left|now right].
      now exists (AAck i :: pre'), d.
  - destruct pre as [|a pre]; [discriminate|]. injection Heq as <- Heq.
    destruct (IH _ _ _ Heq) as [(pre' & d & ->)|HP]; [left|now right].
    now exists (ATrim m :: pre'), d.
  - destruct pre as [|a pre]; [discriminate|]. injection Heq as <- Heq.
    destruct (IH _ _ _ Heq) as [(pre' & d & ->)|HP]; [left|now right].
    now exists (AError e :: pre'), d.
Qed.

(** X4: whatever the client answers, over any number of iterations of the
    consume loop every invocation of the callback is directly followed by
    the acknowledgment of that record when it resolved, and by the
    emission of its error on 'error', without acknowledgment, when it
    rejected. *)
Theorem callback_then_ack_or_error `{RT : JsRuntime} {S : Type}
    {client : RedisClient S} {C : Type}
    (consumerOpts : ConsumerOptions) (cb : Callback C) (clock : nat -> Z)
    (n : nat) (w : World S C) :
  exists delta,
    trace (consume_loop consumerOpts cb clock n w) = trace w ++ delta /\
    forall pre id d r post,
      delta = pre ++ ACallback id d r :: post ->
      exists post', post = after_callback id r :: post'.
Proof.
  destruct (steps_loop consumerOpts cb clock
              (fun id => exists k, stale consumerOpts (clock k) id) n w)
    as (delta & Ht & Hs).
  { intros w0 id Hid. now exists (ticks w0). }
  exists delta. split; [exact Ht|].
  now apply (steps_after_callback _ delta Hs).
Qed.

(** X5: whatever the client answers, in an iteration of the consume loop
    an acknowledgment is sent only directly after the callback resolved on
    that record, or for a record whose age exceeds the retention at the
    clock reading that opens the iteration's pass over the pending batch,
    its [now]. *)
Theorem ack_only_after_success_or_stale `{RT : JsRuntime} {S : Type}
    {client : RedisClient S} {C : Type}
    (consumerOpts : ConsumerOptions) (cb : Callback C) (clock : nat -> Z)
    (w : World S C) :
  exists delta,
    trace (consume_iteration consumerOpts cb clock w) = trace w ++ delta /\
    forall pre id post,
      delta = pre ++ AAck id :: post ->
      (exists pre' d, pre = pre' ++ [ACallback id d None]) \/
      stale consumerOpts (clock (ticks w)) id.
Proof.
  destruct (steps_iteration consumerOpts cb clock
              (stale consumerOpts (clock (ticks w))) w)
    as (delta & Ht & Hs); [now intros id Hid|].
  exists delta. split; [exact Ht|].
  now apply (steps_before_ack _ delta Hs).
Qed.

(** ** The pass over a pending batch *)

Section PendingPass.
Context `{RT : JsRuntime} {S : Type} {client : RedisClient S} {C : Type}.
Variable consumerOpts : ConsumerOptions.
Variable cb : Callback C.
Variable clock : nat -> Z.

Lemma discard_each (now : Z) (messages : list XReadGroupResult)
    (es : list Entry) :
  Forall (fun e => stale consumerOpts now (fst e)) es ->
  forall w : World S C,
    exists w',
      for_each es (fun '(id, _) =>
        if Z.leb (now - ms id) (retention consumerOpts)
        then processMessages cb messages
        else client_xack id) w = (Ok tt, w') /\
      trace w' = trace w ++ map AAck (map fst es) /\
      cbst w' = cbst w.
Proof.
  induction 1 as [|[id fields] es Hid Hes IH]; intros w.
  - exists w. simpl. now rewrite app_nil_r.
  - cbn [for_each]. unfold bind.
    unfold stale in Hid. simpl in Hid.
    destruct (Z.leb_spec (now - ms id) (retention consumerOpts)) as [Hle|_];
      [lia|].
    cbn [client_xack].
    destruct (IH (log (AAck id) (set_store (xack id (store w)) w)))
      as (w' & Heq & Ht & Hc).
    exists w'. split; [exact Heq|]. split; [|exact Hc].
    rewrite Ht. simpl. now rewrite <- app_assoc.
Qed.

Lemma processMessages_whole (name : string) (es : list Entry)
    (rest : list XReadGroupResult) (w : World S C) :
  Forall (fun e => is_Some (JSON_parse (payload_text e))) es ->
  exists delta w',
    processMessages cb ((name, es) :: rest) w = (Ok tt, w') /\
    trace w' = trace w ++ delta /\
    callbacks delta = map fst es.
Proof.
  intros Hes.
  destruct (for_each_prefix cb es w Hes) as (w' & Hok & _).
  destruct (processMessages_once cb name es rest w Hes)
    as (delta & Ht & Hc & _).
  exists delta, w'. cbn [processMessages] in *. rewrite Hok in Ht.
  split; [exact Hok|]. split; [exact Ht|exact Hc].
Qed.

Lemma process_each (now : Z) (name : string) (es : list Entry)
    (rest : list XReadGroupResult) (l : list Entry) :
  Forall (fun e => is_Some (JSON_parse (payload_text e))) es ->
  Forall (fun e => ~ stale consumerOpts now (fst e)) l ->
  forall w : World S C,
    exists delta,
      trace (snd (for_each l (fun '(id, _) =>
        if Z.leb (now - ms id) (retention consumerOpts)
        then processMessages cb ((name, es) :: rest)
        else client_xack id) w)) = trace w ++ delta /\
      callbacks delta = concat (replicate (length l) (map fst es)).
Proof.
  intros Hes. induction 1 as [|[id fields] l Hid Hl IH]; intros w.
  - exists []. simpl. now rewrite app_nil_r.
  - cbn [for_each]. unfold bind.
    unfold stale in Hid. simpl in Hid.
    destruct (Z.leb_spec (now - ms id) (retention consumerOpts)) as [_|Hgt];
      [|lia].
    destruct (processMessages_whole name es rest w Hes)
      as (d1 & w1 & Heq & Ht1 & Hc1).
    rewrite Heq. destruct (IH w1) as (d2 & Ht2 & Hc2).
    exists (d1 ++ d2). rewrite Ht2, Ht1, app_assoc. split; [reflexivity|].
    unfold callbacks in *. rewrite omap_app, Hc1, Hc2. reflexivity.
Qed.

End PendingPass.

(** X6: when every record of a pending batch is stale at the clock
    reading of the pass, the pass acknowledges each record once, in
    order, and does not invoke the callback. *)
Theorem pending_pass_discards_stale `{RT : JsRuntime} {S : Type}
    {client : RedisClient S} {C : Type}
    (consumerOpts : ConsumerOptions) (cb : Callback C) (clock : nat -> Z)
    (name : string) (es : list Entry) (rest : list XReadGroupResult)
    (w : World S C) :
  Forall (fun e => stale consumerOpts (clock (ticks w)) (fst e)) es ->
  exists w',
    pending_pass consumerOpts cb clock ((name, es) :: rest) w = (Ok tt, w') /\
    trace w' = trace w ++ map AAck (map fst es) /\
    cbst w' = cbst w.
Proof.
  intros Hes. unfold pending_pass, bind at 1, date_now.
  destruct (discard_each consumerOpts cb _ ((name, es) :: rest) es Hes
              (mkWorld (store w) (lastTrim w) (closing w)
                       (Datatypes.S (ticks w)) (cbst w) (trace w)))
    as (w' & Heq & Ht & Hc).
  exists w'. split; [exact Heq|]. split; [exact Ht|exact Hc].
Qed.

Lemma pending_pass_discards_stale_witness :
  Forall (fun e => stale (Sample.options (Some 100)) 5000 (fst e))
         [Sample.record 1000 "1"; Sample.record 2000 "2"] /\
  exists w',
    pending_pass (Sample.options (Some 100)) Sample.cb_ok
      (Sample.at_time 5000)
      [("jobs", [Sample.record 1000 "1"; Sample.record 2000 "2"])]
      (Sample.start Sample.one_pending) = (Ok tt, w') /\
    trace w' = [AAck (mkId 1000 0); AAck (mkId 2000 0)] /\
    cbst w' = 0%nat.
Proof.
  assert (H : Forall (fun e => stale (Sample.options (Some 100)) 5000 (fst e))
                     [Sample.record 1000 "1"; Sample.record 2000 "2"]).
  { repeat constructor; unfold stale, retention; simpl; lia. }
  split; [exact H|].
  exact (pending_pass_discards_stale (Sample.options (Some 100)) Sample.cb_ok
           (Sample.at_time 5000) "jobs" _ [] (Sample.start Sample.one_pending)
           H).
Defined.

(** X7: when no record of a pending batch is stale at the clock reading
    of the pass and every record parses, the pass processes the whole
    batch once for each of its records: the callback is invoked on the
    records of the batch in order, as many times over as the batch has
    records. *)
Theorem pending_pass_repeats_batch `{RT : JsRuntime} {S : Type}
    {client : RedisClient S} {C : Type}
    (consumerOpts : ConsumerOptions) (cb : Callback C) (clock : nat -> Z)
    (name : string) (es : list Entry) (rest : list XReadGroupResult)
    (w : World S C) :
  Forall (fun e => ~ stale consumerOpts (clock (ticks w)) (fst e)) es ->
  Forall (fun e => is_Some (JSON_parse (payload_text e))) es ->
  exists delta,
    trace (snd (pending_pass consumerOpts cb clock ((name, es) :: rest) w)) =
      trace w ++ delta /\
    callbacks delta = concat (replicate (length es) (map fst es)).
Proof.
  intros Hfresh Hes. unfold pending_pass, bind at 1, date_now.
  destruct (process_each consumerOpts cb _ name es rest es Hes Hfresh
              (mkWorld (store w) (lastTrim w) (closing w)
                       (Datatypes.S (ticks w)) (cbst w) (trace w)))
    as (delta & Ht & Hc).
  exists delta. split; [exact Ht|exact Hc].
Qed.

Lemma pending_pass_repeats_batch_witness :
  Forall (fun e => ~ stale (Sample.options (Some 100000)) 5000 (fst e))
         [Sample.record 4000 "1"; Sample.record 4990 "2"] /\
  Forall (fun e => is_Some (JSON_parse (payload_text e)))
         [Sample.record 4000 "1"; Sample.record 4990 "2"] /\
  exists delta,
    trace (snd (pending_pass (Sample.options (Some 100000)) Sample.cb_ok
                  (Sample.at_time 5000)
                  [("jobs", [Sample.record 4000 "1"; Sample.record 4990 "2"])]
                  (Sample.start Sample.one_pending))) = [] ++ delta /\
    callbacks delta = [mkId 4000 0; mkId 4990 0; mkId 4000 0; mkId 4990 0].
Proof.
  assert (H1 : Forall (fun e => ~ stale (Sample.options (Some 100000)) 5000
                                  (fst e))
                      [Sample.record 4000 "1"; Sample.record 4990 "2"]).
  { repeat constructor; unfold stale, retention; simpl; lia. }
  assert (H2 : Forall (fun e => is_Some (JSON_parse (payload_text e)))
                      [Sample.record 4000 "1"; Sample.record 4990 "2"]).
  { repeat constructor; eexists; reflexivity. }
  split; [exact H1|]. split; [exact H2|].
  exact (pending_pass_repeats_batch (Sample.options (Some 100000))
           Sample.cb_ok (Sample.at_time 5000) "jobs" _ []
           (Sample.start Sample.one_pending) H1 H2).
Defined.

(** ** Trimming *)

Lemma trimStream_ticks `{RT : JsRuntime} {S : Type} {client : RedisClient S}
    {C : Type} (consumerOpts : ConsumerOptions) (clock : nat -> Z)
    (w : World S C) :
  lastTrim w + trim_interval consumerOpts <= clock (ticks w) ->
  ticks (snd (trimStream consumerOpts clock w)) = (3 + ticks w)%nat.
Proof.
  intros Hlate. unfold trim_interval in Hlate.
  unfold trimStream, bind, get_lastTrim, date_now,
    set_lastTrim, client_xrange, client_xtrim, ret. simpl.
  destruct (Z.ltb_spec (clock (ticks w))
              (lastTrim w + Js.or_default (trimIntervalMs consumerOpts) 60000))
    as [Hlt|_]; [lia|]. simpl.
  destruct (xrange_first _) as [|[oid ofs] old]; [reflexivity|].
  destruct (Z.ltb (ms oid) _); reflexivity.
Qed.

(** X8: a call of [trimStream] whose clock reading is earlier than
    [lastTrim + (trimIntervalMs || 60000)] returns at once: it sends no
    command and changes neither the store nor [lastTrim]. *)
Theorem trim_too_early_does_nothing `{RT : JsRuntime} {S : Type}
    {client : RedisClient S} {C : Type}
    (consumerOpts : ConsumerOptions) (clock : nat -> Z) (w : World S C) :
  clock (ticks w) < lastTrim w + trim_interval consumerOpts ->
  let w' := snd (trimStream consumerOpts clock w) in
  store w' = store w /\ lastTrim w' = lastTrim w /\ trace w' = trace w.
Proof.
  intros Hearly w'. unfold w'.
  now rewrite (trimStream_rate_limited consumerOpts clock w Hearly).
Qed.

Lemma trim_too_early_does_nothing_witness :
  Sample.at_time 5000 (ticks (Sample.start Sample.early)) <
    lastTrim (Sample.start Sample.early) +
    trim_interval (Sample.options (Some 1)) /\
  store (snd (trimStream (Sample.options (Some 1)) (Sample.at_time 5000)
                (Sample.start Sample.early))) = Sample.early.
Proof.
  assert (H : Sample.at_time 5000 (ticks (Sample.start Sample.early)) <
              lastTrim (Sample.start Sample.early) +
              trim_interval (Sample.options (Some 1))).
  { vm_compute. reflexivity. }
  split; [exact H|].
  exact (proj1 (trim_too_early_does_nothing (Sample.options (Some 1))
                  (Sample.at_time 5000) (Sample.start Sample.early) H)).
Defined.

(** X9: after a call of [trimStream] that got past the rate limit, a
    second call whose clock reading is within the interval of the time
    the first call recorded does nothing, whether or not the first call
    deleted anything. *)
Theorem trim_twice_within_interval `{RT : JsRuntime} {S : Type}
    {client : RedisClient S} {C : Type}
    (consumerOpts : ConsumerOptions) (clock : nat -> Z) (w : World S C) :
  lastTrim w + trim_interval consumerOpts <= clock (ticks w) ->
  clock (3 + ticks w)%nat <
    clock (1 + ticks w)%nat + trim_interval consumerOpts ->
  let w1 := snd (trimStream consumerOpts clock w) in
  let w2 := snd (trimStream consumerOpts clock w1) in
  store w2 = store w1 /\ lastTrim w2 = lastTrim w1 /\ trace w2 = trace w1.
Proof.
  intros Hlate Hsoon w1 w2. unfold w2.
  rewrite (trimStream_rate_limited consumerOpts clock w1); [easy|].
  unfold w1.
  rewrite (trimStream_ticks consumerOpts clock w Hlate).
  now rewrite (trimStream_records_time consumerOpts clock w Hlate).
Qed.

Lemma trim_twice_within_interval_witness :
  lastTrim (Sample.start Sample.early) + trim_interval (Sample.options None)
    <= Sample.at_time 100000000 (ticks (Sample.start Sample.early)) /\
  Sample.at_time 100000000 (3 + ticks (Sample.start Sample.early))%nat <
    Sample.at_time 100000000 (1 + ticks (Sample.start Sample.early))%nat +
    trim_interval (Sample.options None) /\
  trace (snd (trimStream (Sample.options None) (Sample.at_time 100000000)
                (snd (trimStream (Sample.options None)
                        (Sample.at_time 100000000)
                        (Sample.start Sample.early))))) =
  trace (snd (trimStream (Sample.options None) (Sample.at_time 100000000)
                (Sample.start Sample.early))).
Proof.
  assert (H1 : lastTrim (Sample.start Sample.early) +
               trim_interval (Sample.options None)
               <= Sample.at_time 100000000
                    (ticks (Sample.start Sample.early))).
  { vm_compute. discriminate. }
  assert (H2 : Sample.at_time 100000000
                 (3 + ticks (Sample.start Sample.early))%nat <
               Sample.at_time 100000000
                 (1 + ticks (Sample.start Sample.early))%nat +
               trim_interval (Sample.options None)).
  { vm_compute. reflexivity. }
  split; [exact H1|]. split; [exact H2|].
  exact (proj2 (proj2 (trim_twice_within_interval (Sample.options None)
                         (Sample.at_time 100000000)
                         (Sample.start Sample.early) H1 H2))).
Defined.

(** X10: on the stream store, a record that a call of [trimStream]
    deletes has a timestamp strictly below the cutoff that the call
    computed, [(now - maxRetentionMs) || 86400000] at its third clock
    reading. *)
Theorem trim_deletes_only_below_cutoff `{RT : JsRuntime} {C : Type}
    (consumerOpts : ConsumerOptions) (clock : nat -> Z)
    (w : World Stream C) (e : Entry) :
  In e (entries (store w)) ->
  ~ In e (entries (store (snd (trimStream consumerOpts clock w)))) ->
  ms (fst e) < cutoff consumerOpts (clock (2 + ticks w)%nat).
Proof. apply trimStream_deletes_older. Qed.

Lemma trim_deletes_only_below_cutoff_witness :
  In (Sample.record 50000000 "1")
     (entries (store (Sample.start Sample.early))) /\
  ~ In (Sample.record 50000000 "1")
       (entries (store (snd (trimStream (Sample.options (Some 1000))
                               (Sample.at_time 100000000)
                               (Sample.start Sample.early))))) /\
  ms (fst (Sample.record 50000000 "1")) <
    cutoff (Sample.options (Some 1000))
           (Sample.at_time 100000000
              (2 + ticks (Sample.start Sample.early))%nat).
Proof.
  assert (H1 : In (Sample.record 50000000 "1")
                  (entries (store (Sample.start Sample.early)))).
  { now left. }
  assert (H2 : ~ In (Sample.record 50000000 "1")
                    (entries (store (snd (trimStream
                                            (Sample.options (Some 1000))
                                            (Sample.at_time 100000000)
                                            (Sample.start Sample.early)))))).
  { vm_compute. intros []. }
  split; [exact H1|]. split; [exact H2|].
  exact (trim_deletes_only_below_cutoff (Sample.options (Some 1000))
           (Sample.at_time 100000000) (Sample.start Sample.early)
           (Sample.record 50000000 "1") H1 H2).
Defined.

(** X11: on the stream store, when the records of the stream are in the
    order of their timestamps, a call of [trimStream] that got past the
    rate limit leaves no record with a timestamp below the cutoff it
    computed. *)
Theorem trim_leaves_none_below_cutoff `{RT : JsRuntime} {C : Type}
    (consumerOpts : ConsumerOptions) (clock : nat -> Z)
    (w : World Stream C) :
  StronglySorted by_time (entries (store w)) ->
  lastTrim w + trim_interval consumerOpts <= clock (ticks w) ->
  Forall (fun e : Entry =>
            cutoff consumerOpts (clock (2 + ticks w)%nat) <= ms (fst e))
         (entries (store (snd (trimStream consumerOpts clock w)))).
Proof.
  intros Hsorted Hlate. unfold trim_interval in Hlate.
  unfold trimStream, bind, get_lastTrim, date_now,
    set_lastTrim, client_xrange, client_xtrim, ret. simpl.
  destruct (Z.ltb_spec (clock (ticks w))
              (lastTrim w + Js.or_default (trimIntervalMs consumerOpts) 60000))
    as [Hlt|_]; [lia|]. simpl.
  fold (cutoff consumerOpts (clock (Datatypes.S (Datatypes.S (ticks w))))).
  set (c := cutoff consumerOpts (clock (Datatypes.S (Datatypes.S (ticks w))))).
  unfold stream_first.
  destruct (entries (store w)) as [|[oid ofs] old] eqn:Hentries; simpl.
  - rewrite Hentries. constructor.
  - destruct (Z.ltb_spec (ms oid) c) as [Hold|Hyoung]; simpl.
    + rewrite Hentries. apply Forall_forall. intros e He.
      apply list_elem_of_filter in He as [He _].
      unfold id_lt in He. simpl in He. lia.
    + rewrite Hentries. apply StronglySorted_cons in Hsorted as [Hall _].
      constructor; [exact Hyoung|].
      eapply Forall_impl; [exact Hall|].
      intros e He. unfold by_time in He. simpl in He. lia.
Qed.

Lemma trim_leaves_none_below_cutoff_witness :
  StronglySorted by_time (entries (store (Sample.start Sample.backlog))) /\
  lastTrim (Sample.start Sample.backlog) +
    trim_interval (Sample.options (Some 98500))
    <= Sample.at_time 100000 (ticks (Sample.start Sample.backlog)) /\
  Forall (fun e : Entry =>
            cutoff (Sample.options (Some 98500))
                   (Sample.at_time 100000
                      (2 + ticks (Sample.start Sample.backlog))%nat)
            <= ms (fst e))
         (entries (store (snd (trimStream (Sample.options (Some 98500))
                                 (Sample.at_time 100000)
                                 (Sample.start Sample.backlog))))).
Proof.
  assert (H1 : StronglySorted by_time
                 (entries (store (Sample.start Sample.backlog)))).
  { repeat constructor; unfold by_time; simpl; lia. }
  assert (H2 : lastTrim (Sample.start Sample.backlog) +
               trim_interval (Sample.options (Some 98500))
               <= Sample.at_time 100000 (ticks (Sample.start Sample.backlog))).
  { vm_compute. discriminate. }
  split; [exact H1|]. split; [exact H2|].
  exact (trim_leaves_none_below_cutoff (Sample.options (Some 98500))
           (Sample.at_time 100000) (Sample.start Sample.backlog) H1 H2).
Defined.

(** * Further properties of the listener *)

Section ListenerMore.
Import QueueEvents.
Context `{RT : JsRuntime}.
Variable key : string.

Lemma tagged_app (a b : list Action) :
  forall c, tagged c a -> (forall c', tagged c' b) -> tagged c (a ++ b).
Proof.
  induction a as [|x a IH]; intros c Ha Hb; [apply Hb|].
  destruct x; simpl in *.
  - now apply IH.
  - now apply IH.
  - destruct Ha as [-> Ha]. split; [reflexivity|]. now apply IH.
Qed.

Lemma tagged_actions_of (l : list Entry) :
  forall c, tagged c (flat_map actions_of l).
Proof.
  induction l as [|e l IH]; intros c; [exact I|].
  simpl. unfold actions_of, dispatch.
  destruct (decode _) as [err|args]; simpl; [apply IH|].
  destruct (strict_eq _ _); simpl; [split; [reflexivity|apply IH]|].
  destruct (truthy _); simpl; repeat (split; [reflexivity|]); apply IH.
Qed.

Lemma loop_tagged (sched : list Arrival) :
  forall st : State,
    exists delta,
      trace (snd (consumeEvents_loop key sched st)) = trace st ++ delta /\
      forall c, tagged c delta.
Proof.
  induction sched as [|[before during] sched IH]; intros st.
  - exists []. simpl. now rewrite app_nil_r.
  - simpl. destruct (closing st).
    { exists []. simpl. now rewrite app_nil_r. }
    set (data := xread key (stream st) before during (cursor st)).
    set (st1 := log [ARead (cursor st) data] (arrive (before ++ during) st)).
    destruct data as [[|[name events] more]|].
    + exists [ARead (cursor st) (Some [])]. split; [reflexivity|].
      intros c. exact I.
    + destruct (handle_events_spec events st1)
        as (done & _ & Htr1 & _ & _ & _ & Hres).
      destruct (handle_events events st1) as [r st2].
      simpl in Htr1, Hres.
      destruct r as [| |err].
      * destruct (IH st2) as (delta & Ht & Htag).
        exists (ARead (cursor st) (Some ((name, events) :: more)) ::
                flat_map actions_of done ++ delta).
        split; [rewrite Ht, Htr1; simpl; now rewrite <- !app_assoc|].
        intros c. simpl. apply tagged_app; [apply tagged_actions_of|].
        exact Htag.
      * contradiction.
      * exists (ARead (cursor st) (Some ((name, events) :: more)) ::
                flat_map actions_of done).
        split; [simpl; rewrite Htr1; simpl; now rewrite <- !app_assoc|].
        intros c. simpl. apply tagged_actions_of.
    + destruct (IH st1) as (delta & Ht & Htag).
      exists (ARead (cursor st) None :: delta).
      split; [rewrite Ht; simpl; now rewrite <- app_assoc|].
      intros c. simpl. apply Htag.
Qed.

Lemma tagged_split (d1 : list Action) :
  forall c t p i d2,
    tagged c (d1 ++ AEmit t p i :: d2) ->
    match last (ids_set d1) with
    | Some j => Some j
    | None => c
    end = Some i.
Proof.
  induction d1 as [|a d1 IH]; intros c t p i d2 Ht.
  - simpl in *. now destruct Ht.
  - destruct a as [from data|j|t' p' j]; simpl in Ht.
    + exact (IH _ _ _ _ _ Ht).
    + change (ids_set (ASetId j :: d1)) with (j :: ids_set d1).
      rewrite last_cons. specialize (IH _ _ _ _ _ Ht).
      now destruct (last (ids_set d1)).
    + destruct Ht as [_ Ht]. exact (IH _ _ _ _ _ Ht).
Qed.

Lemma handle_events_running (es : list Entry) :
  forall st, running (snd (handle_events es st)) = running st.
Proof.
  induction es as [|[eid fields] es IH]; intros st; [reflexivity|].
  simpl. destruct (decode _); [reflexivity|]. now rewrite IH.
Qed.

Lemma loop_running (sched : list Arrival) :
  forall st, running (snd (consumeEvents_loop key sched st)) = running st.
Proof.
  induction sched as [|[before during] sched IH]; intros st; [reflexivity|].
  simpl. destruct (closing st); [reflexivity|].
  destruct (xread _ _ _ _ _) as [[|[name events] more]|].
  - reflexivity.
  - pose proof (handle_events_running events
                  (log [ARead (cursor st) (Some ((name, events) :: more))]
                       (arrive (before ++ during) st))) as Hrun.
    destruct (handle_events events _) as [[| |err] st2]; simpl in *;
      [now rewrite IH| |]; exact Hrun.
  - now rewrite IH.
Qed.

End ListenerMore.

(** X12: in a run of the listener's loop, whatever the stream holds and
    whatever is appended, every emission carries the id that was last
    assigned to the cursor: the cursor is set to a record's id before
    anything is emitted for the record, and nothing is emitted before the
    cursor is first set. *)
Theorem emission_carries_cursor_id `{RT : JsRuntime}
    (opts : QueueEvents.Options) (key : string)
    (sched : list QueueEvents.Arrival) (st : QueueEvents.State) :
  exists delta,
    QueueEvents.trace (snd (QueueEvents.consumeEvents opts key sched st)) =
      QueueEvents.trace st ++ delta /\
    forall d1 topic payload i d2,
      delta = d1 ++ QueueEvents.AEmit topic payload i :: d2 ->
      last (QueueEvents.ids_set d1) = Some i.
Proof.
  unfold QueueEvents.consumeEvents.
  destruct (loop_tagged key sched
              (QueueEvents.set_cursor
                 match QueueEvents.lastEventId opts with
                 | Some x => QueueEvents.At x
                 | None => QueueEvents.Dollar
                 end st)) as (delta & Ht & Htag).
  exists delta. split; [exact Ht|].
  intros d1 topic payload i d2 ->.
  pose proof (tagged_split d1 None topic payload i d2 (Htag None)) as Hlast.
  now destruct (last (QueueEvents.ids_set d1)).
Qed.

(** X13: the decoding of a record's object touches one property at most:
    'data' for the kind "progress" and 'returnvalue' for the kind
    "completed", which is replaced by what [JSON.parse] makes of its
    text; every other property, the kind included, is left as it is, and
    an object of any other kind is returned unchanged.  Decoding fails
    only for these two kinds, with the [SyntaxError] of the text. *)
Theorem decode_touches_one_property `{RT : JsRuntime} (o : obj) :
  let kind := obj_get o "event" in
  match QueueEvents.decode o with
  | inr args =>
      obj_get args "event" = kind /\
      (forall k, k <> "data" -> k <> "returnvalue" -> args !! k = o !! k) /\
      (QueueEvents.strict_eq kind "progress" = true ->
       exists j, JSON_parse (to_string (obj_get o "data")) = Some j /\
                 args = <["data" := VJson j]> o) /\
      (QueueEvents.strict_eq kind "progress" = false ->
       QueueEvents.strict_eq kind "completed" = true ->
       exists j, JSON_parse (to_string (obj_get o "returnvalue")) = Some j /\
                 args = <["returnvalue" := VJson j]> o) /\
      (QueueEvents.strict_eq kind "progress" = false ->
       QueueEvents.strict_eq kind "completed" = false -> args = o)
  | inl e =>
      (QueueEvents.strict_eq kind "progress" = true /\
       e = Js.SyntaxError (to_string (obj_get o "data"))) \/
      (QueueEvents.strict_eq kind "completed" = true /\
       e = Js.SyntaxError (to_string (obj_get o "returnvalue")))
  end.
Proof.
  intros kind. unfold QueueEvents.decode. fold kind.
  destruct (QueueEvents.strict_eq kind "progress") eqn:Hp.
  - unfold parse_value.
    destruct (JSON_parse (to_string (obj_get o "data"))) as [j|] eqn:Hj.
    + split; [unfold obj_get; now rewrite lookup_insert_ne|].
      split; [intros k Hk _; now rewrite lookup_insert_ne|].
      split; [intros _; now exists j|].
      split; discriminate.
    + left. now split.
  - destruct (QueueEvents.strict_eq kind "completed") eqn:Hc.
    + unfold parse_value.
      destruct (JSON_parse (to_string (obj_get o "returnvalue")))
        as [j|] eqn:Hj.
      * split; [unfold obj_get; now rewrite lookup_insert_ne|].
        split; [intros k _ Hk; now rewrite lookup_insert_ne|].
        split; [discriminate|].
        split; [intros _ _; now exists j|discriminate].
      * right. now split.
    + split; [reflexivity|]. split; [reflexivity|].
      split; [discriminate|]. split; [discriminate|reflexivity].
Qed.

(** X14: after a call of [run] on an instance that was not running, the
    instance is marked running exactly when the call did not fail: a
    failure of the connection set-up or of the loop resets the flag, so
    that [run] can be called again. *)
Theorem run_resets_flag_on_failure `{RT : JsRuntime}
    (opts : QueueEvents.Options) (key : string) (reg : string -> bool)
    (setname : option Js.error) (sched : list QueueEvents.Arrival)
    (st : QueueEvents.State) :
  QueueEvents.running st = false ->
  let result := QueueEvents.run opts key reg setname sched st in
  QueueEvents.running (snd result) = false <->
  exists e, fst result = QueueEvents.Failed e.
Proof.
  intros Hrun result. unfold result, QueueEvents.run. rewrite Hrun. simpl.
  set (rethrown := match setname with
                   | Some (Js.Error m as e) | Some (Js.SyntaxError m as e)
                   | Some (Js.TypeError m as e) =>
                       if reg m then None else Some e
                   | None => None
                   end).
  destruct rethrown as [e|].
  - simpl. split; [now exists e|reflexivity].
  - unfold QueueEvents.consumeEvents.
    set (st1 := QueueEvents.set_cursor _ (QueueEvents.set_running true st)).
    pose proof (loop_running key sched st1) as Hkeep.
    destruct (QueueEvents.consumeEvents_loop key sched st1) as [[| |e] st2];
      simpl in *.
    + rewrite Hkeep. split; [discriminate|]. now intros [e He].
    + rewrite Hkeep. split; [discriminate|]. now intros [e He].
    + split; [now exists e|reflexivity].
Qed.

Lemma run_resets_flag_on_failure_witness :
  QueueEvents.running Sample.idle = false /\
  (QueueEvents.running
     (snd (QueueEvents.run (Sample.listener_options (Some (mkId 3 0)))
             "events" (fun _ => false) None
             [([], [Sample.completed 9 "c" "oops"])] Sample.idle)) = false <->
   exists e,
     fst (QueueEvents.run (Sample.listener_options (Some (mkId 3 0)))
            "events" (fun _ => false) None
            [([], [Sample.completed 9 "c" "oops"])] Sample.idle) =
     QueueEvents.Failed e).
Proof.
  split; [reflexivity|].
  exact (run_resets_flag_on_failure (Sample.listener_options (Some (mkId 3 0)))
           "events" (fun _ => false) None
           [([], [Sample.completed 9 "c" "oops"])] Sample.idle eq_refl).
Defined.

(** X15: [close] is idempotent, and on a closed instance the loop returns
    at its first test of [closing]: it issues no read and emits
    nothing. *)
Theorem closed_listener_reads_nothing `{RT : JsRuntime}
    (opts : QueueEvents.Options) (key : string)
    (sched : list QueueEvents.Arrival) (st : QueueEvents.State) :
  let st' := QueueEvents.close st in
  QueueEvents.close st' = st' /\
  QueueEvents.closing st' = true /\
  fst (QueueEvents.consumeEvents opts key sched st') = QueueEvents.Returned /\
  QueueEvents.trace (snd (QueueEvents.consumeEvents opts key sched st')) =
    QueueEvents.trace st /\
  QueueEvents.stream (snd (QueueEvents.consumeEvents opts key sched st')) =
    QueueEvents.stream st.
Proof.
  intros st'. unfold st', QueueEvents.close, QueueEvents.consumeEvents.
  destruct (QueueEvents.closing st) eqn:Hclosing; simpl; rewrite ?Hclosing;
    simpl; destruct sched as [|[before during] sched]; simpl;
    rewrite ?Hclosing; repeat split; reflexivity.
Qed.

(** X16: when a record is reached whose object does not decode, after
    records that do, the loop over the records of a reply fails with the
    error of the decoding; the cursor stands at that record, nothing was
    emitted for it, and the records after it were not touched. *)
Theorem undecodable_event_stops_loop `{RT : JsRuntime}
    (pre post : list Entry) (bad : Entry) (err : Js.error)
    (st : QueueEvents.State) :
  Forall (fun e => exists args,
            QueueEvents.decode (array2obj (snd e)) = inr args) pre ->
  QueueEvents.decode (array2obj (snd bad)) = inl err ->
  exists st',
    QueueEvents.handle_events (pre ++ bad :: post) st =
      (QueueEvents.Failed err, st') /\
    QueueEvents.cursor st' = QueueEvents.At (fst bad) /\
    QueueEvents.trace st' =
      QueueEvents.trace st ++
      flat_map QueueEvents.actions_of pre ++ [QueueEvents.ASetId (fst bad)].
Proof.
  intros Hpre Hbad. revert st.
  induction Hpre as [|[eid fields] pre [args Hargs] Hpre IH]; intros st.
  - destruct bad as [bid bfields]. simpl in *. rewrite Hbad.
    eexists. split; [reflexivity|]. split; reflexivity.
  - simpl in *. rewrite Hargs.
    destruct (IH (QueueEvents.log (QueueEvents.dispatch args eid)
                    (QueueEvents.log [QueueEvents.ASetId eid]
                       (QueueEvents.set_cursor (QueueEvents.At eid) st))))
      as (st' & Heq & Hcur & Htr).
    exists st'. split; [exact Heq|]. split; [exact Hcur|].
    rewrite Htr. simpl. unfold QueueEvents.actions_of at 2. simpl.
    rewrite Hargs. rewrite <- !app_assoc. reflexivity.
Qed.

Lemma undecodable_event_stops_loop_witness :
  Forall (fun e => exists args,
            QueueEvents.decode (array2obj (snd e)) = inr args)
         [Sample.drained 8] /\
  QueueEvents.decode (array2obj (snd (Sample.completed 9 "c" "oops"))) =
    inl (Js.SyntaxError "oops") /\
  exists st',
    QueueEvents.handle_events
      ([Sample.drained 8] ++ Sample.completed 9 "c" "oops" ::
       [Sample.drained 10]) Sample.idle =
      (QueueEvents.Failed (Js.SyntaxError "oops"), st') /\
    QueueEvents.cursor st' = QueueEvents.At (mkId 9 0) /\
    QueueEvents.trace st' =
      QueueEvents.trace Sample.idle ++
      flat_map QueueEvents.actions_of [Sample.drained 8] ++
      [QueueEvents.ASetId (mkId 9 0)].
Proof.
  assert (H1 : Forall (fun e => exists args,
                         QueueEvents.decode (array2obj (snd e)) = inr args)
                      [Sample.drained 8]).
  { repeat constructor. eexists. reflexivity. }
  assert (H2 : QueueEvents.decode
                 (array2obj (snd (Sample.completed 9 "c" "oops"))) =
               inl (Js.SyntaxError "oops")) by reflexivity.
  split; [exact H1|]. split; [exact H2|].
  exact (undecodable_event_stops_loop [Sample.drained 8] [Sample.drained 10]
           (Sample.completed 9 "c" "oops") (Js.SyntaxError "oops")
           Sample.idle H1 H2).
Defined.

(** X17: the loop of the listener returns only when [closing] is set: on
    an instance that is not closing it is left waiting in a read or it
    fails, whatever is appended to the stream. *)
Theorem loop_returns_only_when_closing `{RT : JsRuntime}
    (opts : QueueEvents.Options) (key : string)
    (sched : list QueueEvents.Arrival) (st : QueueEvents.State) :
  fst (QueueEvents.consumeEvents opts key sched st) = QueueEvents.Returned ->
  QueueEvents.closing st = true.
Proof.
  unfold QueueEvents.consumeEvents.
  set (st0 := QueueEvents.set_cursor _ st).
  change (QueueEvents.closing st) with (QueueEvents.closing st0).
  generalize st0. clear st0 st.
  induction sched as [|[before during] sched IH]; intros st; simpl.
  - now destruct (QueueEvents.closing st).
  - destruct (QueueEvents.closing st) eqn:Hclosing; [reflexivity|].
    destruct (QueueEvents.xread _ _ _ _ _) as [[|[name events] more]|] eqn:Hx.
    + discriminate.
    + match goal with
      | |- context [QueueEvents.handle_events events ?s] =>
          destruct (handle_events_spec events s)
            as (done & _ & _ & _ & Hkeep & _ & _);
          destruct (QueueEvents.handle_events events s) as [[| |err] st2]
      end; simpl in *; try discriminate.
      intros Hret. apply IH in Hret. rewrite Hkeep in Hret.
      now rewrite Hclosing in Hret.
    + intros Hret. apply IH in Hret. simpl in Hret.
      now rewrite Hclosing in Hret.
Qed.

Lemma loop_returns_only_when_closing_witness :
  fst (QueueEvents.consumeEvents (Sample.listener_options None) "events"
         [([], [Sample.drained 9])] (QueueEvents.close Sample.idle)) =
    QueueEvents.Returned /\
  QueueEvents.closing (QueueEvents.close Sample.idle) = true.
Proof.
  assert (H : fst (QueueEvents.consumeEvents (Sample.listener_options None)
                     "events" [([], [Sample.drained 9])]
                     (QueueEvents.close Sample.idle)) =
              QueueEvents.Returned) by reflexivity.
  split; [exact H|].
  exact (loop_returns_only_when_closing (Sample.listener_options None)
           "events" [([], [Sample.drained 9])]
           (QueueEvents.close Sample.idle) H).
Defined.

(** * Further properties of [consume] and of the field objects *)

Lemma prefix_append (s t : string) : String.prefix s (s +:+ t) = true.
Proof.
  induction s as [|a s IH]; simpl; [now destruct t|].
  destruct (Ascii.ascii_dec a a) as [_|Hne]; [exact IH|now contradiction Hne].
Qed.

Lemma includes_prefix (needle hay : string) :
  String.prefix needle hay = true -> Js.includes needle hay = true.
Proof. intros H. destruct hay; cbn [Js.includes]; now rewrite H. Qed.

Lemma includes_append (needle pre post : string) :
  Js.includes needle (pre +:+ needle +:+ post) = true.
Proof.
  induction pre as [|a pre IH].
  - change ("" +:+ needle +:+ post) with (needle +:+ post).
    apply includes_prefix, prefix_append.
  - change (String a pre +:+ needle +:+ post)
      with (String a (pre +:+ needle +:+ post)).
    cbn [Js.includes]. rewrite IH. apply orb_true_r.
Qed.

(** X18: when the creation of the consumer group fails, [consume] goes on
    to the loop if the message of the error contains "BUSYGROUP"
    anywhere; otherwise it emits the error on 'error' and does nothing
    else: no read, no callback, no acknowledgment. *)
Theorem group_creation_failure `{RT : JsRuntime} {S : Type}
    {client : RedisClient S} {C : Type}
    (consumerOpts : ConsumerOptions) (cb : Callback C) (clock : nat -> Z)
    (n : nat) (w : World S C) (e : Js.error) (s : S) :
  xgroup_create (store w) = (Some e, s) ->
  (forall pre post,
     error_message e = pre +:+ "BUSYGROUP" +:+ post ->
     consume consumerOpts cb clock n w =
     consume_loop consumerOpts cb clock n (set_store s w)) /\
  (Js.includes "BUSYGROUP" (error_message e) = false ->
   consume consumerOpts cb clock n w = log (AError e) (set_store s w)).
Proof.
  intros Hcreate. unfold consume. rewrite Hcreate. split.
  - intros pre post Hmsg.
    pose proof (includes_append "BUSYGROUP" pre post) as Hinc.
    rewrite <- Hmsg in Hinc. destruct e; simpl in Hinc; now rewrite Hinc.
  - intros Hinc. destruct e; simpl in Hinc; now rewrite Hinc.
Qed.

Lemma group_creation_failure_witness :
  xgroup_create (store (Sample.start Sample.backlog)) =
    (Some (Js.Error "BUSYGROUP Consumer Group name already exists"),
     Sample.backlog) /\
  consume (Sample.options None) Sample.cb_ok (Sample.at_time 5000) 1
    (Sample.start Sample.backlog) =
  consume_loop (Sample.options None) Sample.cb_ok (Sample.at_time 5000) 1
    (set_store Sample.backlog (Sample.start Sample.backlog)).
Proof.
  assert (H : xgroup_create (store (Sample.start Sample.backlog)) =
              (Some (Js.Error "BUSYGROUP Consumer Group name already exists"),
               Sample.backlog)) by reflexivity.
  split; [exact H|].
  exact (proj1 (group_creation_failure (Sample.options None) Sample.cb_ok
                  (Sample.at_time 5000) 1 (Sample.start Sample.backlog) _ _ H)
           "" " Consumer Group name already exists" eq_refl).
Defined.

Lemma fields_to_obj_trailing `{RT : JsRuntime}
    (kvs : list (string * string)) (k : string) :
  forall acc : obj,
    fields_to_obj (flatten kvs ++ [k]) acc =
    set_prop k VUndefined (fields_to_obj (flatten kvs) acc).
Proof.
  induction kvs as [|[k' v'] kvs IH]; intros acc; [reflexivity|].
  simpl. apply IH.
Qed.

(** X19: a field list that ends in a key without a value binds that key,
    when it is not ["__proto__"], to [undefined], whatever an earlier pair
    gave it; read as the payload this is the text "undefined". *)
Theorem trailing_key_is_undefined `{RT : JsRuntime}
    (kvs : list (string * string)) (k : string) :
  k <> "__proto__" ->
  fields_to_obj (flatten kvs ++ [k]) ∅ !! k = Some VUndefined /\
  to_string (obj_get (fields_to_obj (flatten kvs ++ [k]) ∅) k) = "undefined".
Proof.
  intros Hk. rewrite fields_to_obj_trailing. unfold obj_get.
  now rewrite set_prop_same.
Qed.

Lemma trailing_key_is_undefined_witness :
  "data" <> "__proto__" /\
  fields_to_obj (flatten [("data", "1")] ++ ["data"]) ∅ !! "data" =
    Some VUndefined /\
  to_string (obj_get (fields_to_obj (flatten [("data", "1")] ++ ["data"]) ∅)
                     "data") = "undefined".
Proof.
  assert (Hp : "data" <> "__proto__") by discriminate.
  split; [exact Hp|].
  exact (trailing_key_is_undefined (RT := Sample.numerals)
           [("data", "1")] "data" Hp).
Defined.
